(** * Lambolt [Parser.ts]: a shallow embedding and its verified properties

    The TypeScript module [src/Parser.ts] is a small library of parser
    combinators over a cursor [{code, index}].  This development embeds
    the module function by function and proves (or refutes) the
    properties its specification states.

    Conventions of the embedding.
    - A JavaScript string is the list of its UTF-16 code units.
    - [index] is a JavaScript number; the embedding keeps its integer
      values, negative ones included, as [Z].
    - A parser may return a pair, [throw] a string, or never produce a
      result (unbounded recursion); [Result] has one constructor for each.
    - Recursion that is not structural carries a recursion budget
      ([fuel]); lemmas show when the budget is enough. *)

From Stdlib Require Import ZArith NArith Lia Bool List String Ascii DecimalString.
From stdpp Require Import base decidable option list numbers.

Local Open Scope Z_scope.

(** ** JavaScript strings *)

Module Js.

(** A UTF-16 code unit. *)
Definition char : Type := N.

(** A string value: its sequence of code units. *)
Definition jsstring : Type := list char.

(** String literals of the source, written in ASCII. *)
Definition str (s : string) : jsstring :=
  map N_of_ascii (list_ascii_of_string s).

(** [s.length] *)
Definition len (s : jsstring) : Z := Z.of_nat (length s).

(** [s[i]]: [None] stands for [undefined]. *)
Definition char_at (s : jsstring) (i : Z) : option char :=
  if i <? 0 then None else s !! Z.to_nat i.

(** Relative index resolution shared by [String.prototype.slice] and
    [Array.prototype.slice]: a negative position counts from the end. *)
Definition clamp (n k : Z) : Z :=
  if k <? 0 then Z.max (n + k) 0 else Z.min k n.

(** [xs.slice(a, b)], for strings and for arrays. *)
Definition slice {A : Type} (xs : list A) (a b : Z) : list A :=
  let n := Z.of_nat (length xs) in
  let from := clamp n a in
  let to := clamp n b in
  take (Z.to_nat (to - from)) (drop (Z.to_nat from) xs).

(** [xs.slice(a)] *)
Definition slice_from {A : Type} (xs : list A) (a : Z) : list A :=
  drop (Z.to_nat (clamp (Z.of_nat (length xs)) a)) xs.

(** [a === b] on strings. *)
Definition eqb (a b : jsstring) : bool := bool_decide (a = b).

(** [s.indexOf(needle)]: the first position where [needle] starts, [-1]
    when there is none. *)
Fixpoint indexOf_from (needle s : jsstring) (i : Z) : Z :=
  if eqb (take (length needle) s) needle then i
  else match s with
       | [] => -1
       | _ :: s' => indexOf_from needle s' (i + 1)
       end.

Definition indexOf (s needle : jsstring) : Z := indexOf_from needle s 0.

(** [s.split("\n")]: the pieces between the occurrences of [c]. *)
Fixpoint split_on (c : char) (s : jsstring) : list jsstring :=
  match s with
  | [] => [[]]
  | x :: s' =>
      if N.eqb x c then [] :: split_on c s'
      else match split_on c s' with
           | [] => [[x]]
           | l :: ls => (x :: l) :: ls
           end
  end.

(** Decimal numeral of an integer, as ["" + n] prints it. *)
Definition of_int (n : Z) : jsstring :=
  str (NilZero.string_of_int (Z.to_int n)).

(** The string that [undefined] turns into under [+] and [RegExp.test]. *)
Definition undefined_text : jsstring := str "undefined".

(** [x] coerced to a string, for [x] a character or [undefined]. *)
Definition to_text (x : option char) : jsstring :=
  match x with
  | Some c => [c]
  | None => undefined_text
  end.

Definition newline : char := 10%N.

(** [/\n/.test(x)] *)
Definition is_newline (c : char) : bool := N.eqb c newline.

(** [/\s/.test(x)]: ECMAScript WhiteSpace and LineTerminator. *)
Definition is_space (c : char) : bool :=
  ((9 <=? c) && (c <=? 13) || (c =? 32) || (c =? 160) || (c =? 5760)
   || (8192 <=? c) && (c <=? 8202) || (c =? 8232) || (c =? 8233)
   || (c =? 8239) || (c =? 8287) || (c =? 12288) || (c =? 65279))%N.

(** [/[a-zA-Z0-9_.]/.test(x)] *)
Definition is_ident (c : char) : bool :=
  ((97 <=? c) && (c <=? 122) || (65 <=? c) && (c <=? 90)
   || (48 <=? c) && (c <=? 57) || (c =? 95) || (c =? 46))%N.

(** [re.test(x)] for a one-character class [cls] and [x] a character or
    [undefined]: the argument is first coerced to a string, and the
    test succeeds when some character of that string is in the class. *)
Definition test (cls : char -> bool) (x : option char) : bool :=
  existsb cls (to_text x).

End Js.

Import Js.

(** ** Type *)

(** [type State = {code: string, index: number}] *)
Record State : Type := mkState { code : jsstring; index : Z }.

(** What an application [parser(state)] can do: return [[state, value]],
    [throw] a message, or produce nothing because its recursion never
    bottoms out. *)
Inductive Result (A : Type) : Type :=
| Ret (state : State) (value : A)
| Throw (msg : jsstring)
| Diverge.

Arguments Ret {A} state value.
Arguments Throw {A} msg.
Arguments Diverge {A}.

(** [type Parser<A> = (state: State) => [State, A]] *)
Definition Parser (A : Type) : Type := State -> Result A.

(** [var [state, x] = r; k]: destructure the returned pair and go on;
    an exception or a missing result ends the computation. *)
Definition and_then {A B : Type} (r : Result A) (k : State -> A -> Result B)
  : Result B :=
  match r with
  | Ret state x => k state x
  | Throw msg => Throw msg
  | Diverge => Diverge
  end.

Notation "'var' [ s , x ] ':=' r 'in' k" :=
  (and_then r (fun s x => k))
  (at level 10, s name, x name, r at level 100, k at level 200,
   format "'[v' 'var'  [ s ,  x ]  ':='  r  'in' '/' k ']'").

(** ** Monad *)

(** Monadic binder *)
Definition bind {A B : Type} (a_parser : Parser A) (b_parser : A -> Parser B)
  : Parser B :=
  fun state =>
    var [state, a_value] := a_parser state in
    b_parser a_value state.

(** Monadic return *)
Definition pure {A : Type} (a : A) : Parser A :=
  fun state => Ret state a.

(** ** Utils *)

(** Returns the current state *)
Definition get_state : Parser State :=
  fun state => Ret state state.

(** Number of characters from the cursor to the end of the text. *)
Definition remaining (code : jsstring) (index : Z) : nat :=
  Z.to_nat (len code - index).

(** [while (cond(index)) index += 1], run for at most [fuel] rounds. *)
Fixpoint while_index (fuel : nat) (cond : Z -> bool) (index : Z) : Z :=
  match fuel with
  | O => index
  | S fuel => if cond index then while_index fuel cond (index + 1) else index
  end.

(** ** Skippers *)

(** Loop condition of [skip_comment]. *)
Definition in_comment (code : jsstring) (index : Z) : bool :=
  (index <? len code) && negb (test is_newline (char_at code index)).

(** Skips "//..." comments *)
Definition skip_comment : Parser bool :=
  fun state =>
    let skips := eqb (slice (code state) (index state) (index state + 2)) (str "//") in
    if skips then
      let index := index state + 2 in
      let index := while_index (remaining (code state) index)
                     (in_comment (code state)) index in
      Ret (mkState (code state) index) true
    else
      Ret state false.

(** Loop condition of [skip_spaces]. *)
Definition at_space (code : jsstring) (index : Z) : bool :=
  test is_space (char_at code index).

(** Skips whitespaces *)
Definition skip_spaces : Parser bool :=
  fun state =>
    let skips := at_space (code state) (index state) in
    let index := while_index (remaining (code state) (index state))
                   (at_space (code state)) (index state) in
    Ret (mkState (code state) index) skips.

(** Skips whitespaces and comments; [fuel] bounds the recursion depth. *)
Fixpoint skip_rec (fuel : nat) : Parser bool :=
  fun state =>
    match fuel with
    | O => Diverge
    | S fuel =>
        var [state, comment] := skip_comment state in
        var [state, spaces] := skip_spaces state in
        if comment || spaces then
          var [state, skipped] := skip_rec fuel state in
          Ret state true
        else
          Ret state false
    end.

(** Every recursive call of [skip] happens after the cursor moved forward,
    so one more than the number of remaining characters is budget enough
    (lemma [skip_unfold]). *)
Definition skip : Parser bool :=
  fun state => skip_rec (S (remaining (code state) (index state))) state.

(** ** Errors *)

(** [for (var i = 0; i < n; ++i) if (code[i] === "\n") ++line], from
    character [i] on, with [n] rounds left. *)
Fixpoint count_lines (n : nat) (code : jsstring) (i : Z) (line : Z) : Z :=
  match n with
  | O => line
  | S n =>
      let line :=
        match char_at code i with
        | Some c => if is_newline c then line + 1 else line
        | None => line
        end in
      count_lines n code (i + 1) line
  end.

(** Line of the character at [index]: the newlines strictly before it. *)
Definition line_of (code : jsstring) (index : Z) : Z :=
  count_lines (Z.to_nat index) code 0 0.

Definition open : jsstring := [171%N].
Definition close : jsstring := [187%N].
Definition open_color : jsstring := 27%N :: str "[4m" ++ 27%N :: str "[31m".
Definition close_color : jsstring := 27%N :: str "[0m".

(** The colouring of one line of the block, by its number. *)
Definition paint (from_line to_line numb : Z) (line : jsstring) : jsstring :=
  if (numb =? from_line) && (numb =? to_line) then
    slice line 0 (indexOf line open) ++ open_color
      ++ slice line (indexOf line open) (indexOf line close + 1) ++ close_color
      ++ slice_from line (indexOf line close + 1)
  else if numb =? from_line then
    slice line 0 (indexOf line open) ++ open_color
      ++ slice_from line (indexOf line open) ++ close_color
  else if (from_line <? numb) && (numb <? to_line) then
    open_color ++ line ++ close_color
  else if numb =? to_line then
    open_color ++ slice line 0 (indexOf line close + 1) ++ close_color
      ++ slice_from line (indexOf line close + 1)
  else
    line.

(** [("    "+numb).slice(-4)] *)
Definition pad4 (numb : Z) : jsstring :=
  slice_from (str "    " ++ of_int numb) (-4).

(** The rendering loop of [highlight]: [lines] are the lines still to
    print, [i] the loop counter, [text] the output so far. *)
Fixpoint render (from_line to_line block_from_line : Z)
    (lines : list jsstring) (i : Z) (text : jsstring) : jsstring :=
  match lines with
  | [] => text
  | l :: lines =>
      let numb := block_from_line + i in
      let line := l ++ [newline] in
      let line := paint from_line to_line numb line in
      let line := pad4 numb ++ str " | " ++ line in
      render from_line to_line block_from_line lines (i + 1) (text ++ line)
  end.

(** Pretty highligts a slice of the code, between two given indexes. *)
Definition highlight (from_index to_index : Z) (code : jsstring) : jsstring :=
  let from_line := line_of code from_index in
  let to_line := line_of code to_index in
  let colored := slice code 0 from_index ++ open
                   ++ slice code from_index to_index ++ close
                   ++ slice_from code to_index in
  let lines := split_on newline colored in
  let block_from_line := Z.max (from_line - 3) 0 in
  let block_to_line := Z.min (to_line + 3) (Z.of_nat (length lines)) in
  let lines := slice lines block_from_line block_to_line in
  render from_line to_line block_from_line lines 0 [].

Definition expected_string {A : Type} (s : jsstring) : Parser A :=
  fun state =>
    Throw (str "Expected '" ++ s ++ str "':" ++ [newline]
             ++ highlight (index state) (index state + len s) (code state)).

Definition expected_type {A : Type} (name : jsstring) : Parser A :=
  fun state =>
    Throw (str "Expected " ++ name ++ str ":" ++ [newline]
             ++ highlight (index state) (index state + 1) (code state)).

(** ** Strings *)

(** Attempts to match a string right after the cursor.
    If it matches, consume it and return true.
    Otherwise, return false. *)
Definition match_here (s : jsstring) : Parser bool :=
  fun state =>
    if eqb (slice (code state) (index state) (index state + len s)) s then
      Ret (mkState (code state) (index state + len s)) true
    else
      Ret state false.

(** A regular expression, abstracted to what [text.match(regex)] returns:
    [null], or the position [matched.index] and the text [matched[0]]. *)
Definition RegExp : Type := jsstring -> option (Z * jsstring).

Definition match_here_regex (regex : RegExp) : Parser bool :=
  fun state =>
    match regex (slice_from (code state) (index state)) with
    | Some (matched_index, matched_0) =>
        if matched_index =? 0 then
          Ret (mkState (code state) (index state + len matched_0)) true
        else
          Ret state false
    | None => Ret state false
    end.

(** [matcher: string | RegExp] *)
Inductive Matcher : Type :=
| Lit (s : jsstring)
| Rx (regex : RegExp).

(** Like match, but skipping spaces and comments before. *)
Definition match_ (matcher : Matcher) : Parser bool :=
  fun state =>
    var [state, skipped] := skip state in
    match matcher with
    | Lit s => match_here s state
    | Rx regex => match_here_regex regex state
    end.

(** Forces consuming a string. If it fails, throws. *)
Definition consume (s : jsstring) : Parser unit :=
  fun state =>
    var [state, matched] := match_ (Lit s) state in
    if matched then
      Ret state tt
    else
      expected_string s state.

(** Consumes one character. Returns it.  The value is [null] (outer
    [None]) at the end of the text, and [state.code[state.index]]
    otherwise. *)
Definition get_char : Parser (option (option char)) :=
  fun state =>
    var [state, skipped] := skip state in
    if index state <? len (code state) then
      Ret (mkState (code state) (index state + 1))
          (Some (char_at (code state) (index state)))
    else
      Ret state None.

(** Returns true if we are at the end of the file, skipping spaces and
    comments. *)
Definition done : Parser bool :=
  fun state =>
    var [state, skipped] := skip state in
    Ret state (index state =? len (code state)).

(** ** Combinators *)

(** Evaluates a parser and returns its result, but reverts its effect. *)
Definition dry {A : Type} (parser : Parser A) : Parser A :=
  fun state =>
    var [_state, result] := parser state in
    Ret state result.

(** Evaluates a parser until a condition is met. Returns an array of
    results.  [fuel] bounds the depth of the recursion. *)
Fixpoint until {A : Type} (fuel : nat) (delim : Parser bool) (parser : Parser A)
  : Parser (list A) :=
  fun state =>
    match fuel with
    | O => Diverge
    | S fuel =>
        var [state, delimited] := delim state in
        if delimited then
          Ret state []
        else
          var [state, a] := parser state in
          var [state, b] := until fuel delim parser state in
          Ret state ([a] ++ b)
    end.

(** Evaluates a list-like parser, with an opener, separator, and closer. *)
Definition list_ {A B : Type} (fuel : nat) (open sep close : Parser bool)
    (elem : Parser A) (make : list A -> B) : Parser B :=
  fun state =>
    var [state, skp] := open state in
    var [state, arr] :=
      until fuel close (fun state =>
        var [state, val] := elem state in
        var [state, skp] := sep state in
        Ret state val) state in
    Ret state (make arr).

(** ** Blocks *)

(** JavaScript truthiness of the values of a type: what [if (x)] tests. *)
Class Truthy (A : Type) : Type := truthy : A -> bool.

(** A string is falsy exactly when it is empty. *)
#[export] Instance truthy_string : Truthy jsstring :=
  fun s => match s with [] => false | _ => true end.

#[export] Instance truthy_bool : Truthy bool := fun b => b.

(** A number is falsy exactly when it is zero. *)
#[export] Instance truthy_number : Truthy Z := fun n => negb (n =? 0).

(** [A | null]: [null] is falsy, a value of [A] is as truthy as in [A]. *)
#[export] Instance truthy_nullable {A : Type} `{Truthy A} : Truthy (option A) :=
  fun x => match x with Some a => truthy a | None => false end.

(** Checks if a boolean parser returns true. If so, revert it and apply
    another parser. This is usually used to select parsing variants. *)
Definition guard {A : Type} (head : Parser bool) (body : Parser A)
  : Parser (option A) :=
  fun state =>
    var [state, skipped] := skip state in
    var [state, matched] := dry head state in
    if matched then
      var [state, a] := body state in
      Ret state (Some a)
    else
      Ret state None.

(** Attempts several [A | null] parsers, returning the first one that
    succeeds. If no parser succeeds, throws.  The loop over [choices],
    from the choice at hand on; [if (got)] is a truthiness test. *)
Fixpoint grammar {A : Type} `{Truthy A} (name : jsstring)
    (choices : list (Parser (option A))) : Parser A :=
  fun state =>
    match choices with
    | [] => expected_type name state
    | choice :: choices =>
        var [state, got] := choice state in
        match got with
        | Some a => if truthy a then Ret state a else grammar name choices state
        | None => grammar name choices state
        end
    end.

(** ** Name *)

(** The loop of [name_here], run for at most [fuel] rounds. *)
Fixpoint name_loop (fuel : nat) (code : jsstring) (index : Z) (name : jsstring)
  : Z * jsstring :=
  match fuel with
  | O => (index, name)
  | S fuel =>
      if (index <? len code) && test is_ident (char_at code index) then
        name_loop fuel code (index + 1) (name ++ to_text (char_at code index))
      else
        (index, name)
  end.

(** Parses a name right after the parsing cursor. *)
Definition name_here : Parser jsstring :=
  fun state =>
    let '(index, name) :=
      name_loop (remaining (code state) (index state)) (code state)
        (index state) [] in
    Ret (mkState (code state) index) name.

(** Parses a name after skipping. *)
Definition name : Parser jsstring :=
  fun state =>
    var [state, skipped] := skip state in
    name_here state.

(** Parses a non-empty name after skipping. *)
Definition name1 : Parser jsstring :=
  fun state =>
    var [state, name1] := name state in
    if 0 <? len name1 then
      Ret state name1
    else
      expected_type (str "name") state.

Definition caller (open : jsstring) : Parser bool :=
  fun state =>
    var [state, nam] := name_here state in
    var [state, got] := match_here open state in
    Ret state ((0 <? len nam) && got).

(** [call]: a name, then a list-like sequence; [make] gets both. *)
Definition call {A B : Type} (fuel : nat) (open sep close : Parser bool)
    (elem : Parser A) (make : jsstring -> list A -> B) : Parser B :=
  fun state =>
    var [state, nam] := name1 state in
    var [state, skp] := open state in
    var [state, arr] :=
      until fuel close (fun state =>
        var [state, val] := elem state in
        var [state, skp] := sep state in
        Ret state val) state in
    Ret state (make nam arr).

(** ** Tests *)

(** [type StrBinTree = [StrBinTree, StrBinTree] | string] *)
Inductive StrBinTree : Type :=
| Node (lft rgt : StrBinTree)
| Leaf (name : jsstring).

(** An array is truthy; a string is truthy when it is not empty. *)
#[export] Instance truthy_StrBinTree : Truthy StrBinTree :=
  fun t => match t with Node _ _ => true | Leaf s => truthy s end.

(** The demonstration grammar.  Each [Parser(function*() {...})] block is
    applied at most once, so it is the chain of [bind]s of its [yield]s.
    [fuel] bounds the nesting depth of the recursion. *)
Fixpoint sbt (fuel : nat) : Parser StrBinTree :=
  fun state =>
    match fuel with
    | O => Diverge
    | S fuel =>
        let sbt_node : Parser (option StrBinTree) :=
          guard (match_ (Lit (str "(")))
            (bind (consume (str "(")) (fun _ =>
             bind (sbt fuel) (fun lft =>
             bind (sbt fuel) (fun rgt =>
             bind (consume (str ")")) (fun _ =>
             pure (Node lft rgt)))))) in
        let sbt_name : Parser (option StrBinTree) :=
          guard (match_ (Lit (str "")))
            (bind name (fun x => pure (Leaf x))) in
        grammar (str "StrBinTree") [sbt_node; sbt_name] state
    end.

(** * Notions used in the statements *)

(** The states on which neither skipper finds anything. *)
Definition settled (s : State) : Prop :=
  skip_comment s = Ret s false /\ skip_spaces s = Ret s false.

(** The literal [l] occurs exactly at the cursor of [s]: the text from the
    cursor on starts with [l]. *)
Definition occurs_at (l : jsstring) (s : State) : Prop :=
  l `prefix_of` drop (Z.to_nat (index s)) (code s).

(** The longest run of identifier characters at the start of a text. *)
Fixpoint ident_prefix (s : jsstring) : jsstring :=
  match s with
  | c :: s' => if is_ident c then c :: ident_prefix s' else []
  | [] => []
  end.

(** The identifier at the cursor of [s] (possibly empty). *)
Definition ident_at (s : State) : jsstring :=
  ident_prefix (drop (Z.to_nat (index s)) (code s)).

(** [s] with the cursor moved [n] characters forward. *)
Definition advance (s : State) (n : Z) : State :=
  mkState (code s) (index s + n).


(** The effect of a boolean parser with its answer forgotten. *)
Definition effect (r : Result bool) : Result unit :=
  var [state, _b] := r in Ret state tt.

(** Two boolean parsers that differ at most in the booleans they return. *)
Definition same_effect (p q : Parser bool) : Prop :=
  forall s, effect (p s) = effect (q s).

(** The element parser that [list] hands to [until]. *)
Definition elem_then_sep {A : Type} (elem : Parser A) (sep : Parser bool)
  : Parser A :=
  fun state =>
    var [state, val] := elem state in
    var [state, skp] := sep state in
    Ret state val.

(** [p] with its answer replaced by [b]. *)
Definition answering (b : bool) (p : Parser bool) : Parser bool :=
  fun state =>
    var [state, _b] := p state in
    Ret state b.

(** [passes choices s s']: run in order from [s], threading the state, each
    of [choices] returns a result that [if (got)] takes for missing, and
    the last one leaves the state [s']. *)
Inductive passes {A : Type} `{Truthy A}
  : list (Parser (option A)) -> State -> State -> Prop :=
| passes_nil s : passes [] s s
| passes_cons choice choices s s1 got s' :
    choice s = Ret s1 got ->
    truthy got = false ->
    passes choices s1 s' ->
    passes (choice :: choices) s s'.

(** The selector as its signature documents it, [null] alone standing for
    "this alternative does not apply": the reading of the specification,
    kept apart from [grammar] for comparison. *)
Fixpoint grammar_by_null {A : Type} (name : jsstring)
    (choices : list (Parser (option A))) : Parser A :=
  fun state =>
    match choices with
    | [] => expected_type name state
    | choice :: choices =>
        var [state, got] := choice state in
        match got with
        | Some a => Ret state a
        | None => grammar_by_null name choices state
        end
    end.

(** The demonstration grammar over [grammar_by_null]. *)
Fixpoint sbt_by_null (fuel : nat) : Parser StrBinTree :=
  fun state =>
    match fuel with
    | O => Diverge
    | S fuel =>
        let sbt_node : Parser (option StrBinTree) :=
          guard (match_ (Lit (str "(")))
            (bind (consume (str "(")) (fun _ =>
             bind (sbt_by_null fuel) (fun lft =>
             bind (sbt_by_null fuel) (fun rgt =>
             bind (consume (str ")")) (fun _ =>
             pure (Node lft rgt)))))) in
        let sbt_name : Parser (option StrBinTree) :=
          guard (match_ (Lit (str "")))
            (bind name (fun x => pure (Leaf x))) in
        grammar_by_null (str "StrBinTree") [sbt_node; sbt_name] state
    end.

(** The text with the span bracketed by the markers: [colored] in
    [highlight]. *)
Definition marked (from_index to_index : Z) (code : jsstring) : jsstring :=
  slice code 0 from_index ++ open
    ++ slice code from_index to_index ++ close
    ++ slice_from code to_index.

(** The newlines of a text. *)
Fixpoint count_newlines (s : jsstring) : Z :=
  match s with
  | [] => 0
  | c :: s' => (if is_newline c then 1 else 0) + count_newlines s'
  end.

(** Line number [numb] of [lines], empty if there is none. *)
Definition line_at (lines : list jsstring) (numb : Z) : jsstring :=
  match lines !! Z.to_nat numb with
  | Some line => line
  | None => []
  end.

(** What [highlight] prints for line [numb]: the number field, a bar, and
    the painted line with its newline. *)
Definition row (from_line to_line : Z) (lines : list jsstring) (numb : Z)
  : jsstring :=
  pad4 numb ++ str " | "
    ++ paint from_line to_line numb (line_at lines numb ++ [newline]).

(** The invariant of a cursor: it lies within the text. *)
Definition valid (s : State) : Prop := 0 <= index s <= len (code s).

(** A parser that, whenever it returns, leaves the text as it was, the
    cursor at or after where it was, and a valid cursor valid. *)
Definition steady {A : Type} (p : Parser A) : Prop :=
  forall s s' a,
    p s = Ret s' a ->
    code s' = code s /\ index s <= index s' /\ (valid s -> valid s').

(** The longest run of characters of a class at the start of a text. *)
Fixpoint run_of (cls : char -> bool) (s : jsstring) : jsstring :=
  match s with
  | c :: s' => if cls c then c :: run_of cls s' else []
  | [] => []
  end.

(** At the valid position [i] of [code] the text goes on with [x]. *)
Definition sees (code : jsstring) (i : Z) (x : jsstring) : Prop :=
  0 <= i /\ drop (Z.to_nat i) code = x.

(** A text at whose start there is no trivia: it is empty, or its first
    character is neither whitespace nor a slash. *)
Definition firm (s : jsstring) : Prop :=
  match s with
  | [] => True
  | c :: _ => is_space c = false /\ c <> 47%N
  end.

(** A text that does not go on with an identifier character. *)
Definition ends_name (s : jsstring) : Prop :=
  match s with
  | [] => True
  | c :: _ => is_ident c = false
  end.

(** A non-empty identifier. *)
Definition is_name (n : jsstring) : Prop :=
  n <> [] /\ Forall (fun c => is_ident c = true) n.

(** The text of a binary tree: a name, or the two subtrees in
    parentheses with a space between them. *)
Fixpoint print (t : StrBinTree) : jsstring :=
  match t with
  | Leaf n => n
  | Node lft rgt => str "(" ++ print lft ++ str " " ++ print rgt ++ str ")"
  end.

(** The trees whose leaves are non-empty identifiers. *)
Fixpoint named (t : StrBinTree) : Prop :=
  match t with
  | Leaf n => is_name n
  | Node lft rgt => named lft /\ named rgt
  end.

Fixpoint depth (t : StrBinTree) : nat :=
  match t with
  | Leaf _ => 0%nat
  | Node lft rgt => S (Nat.max (depth lft) (depth rgt))
  end.

(** The elements of a list written with commas between them. *)
Fixpoint commas (names : list jsstring) : jsstring :=
  match names with
  | [] => []
  | [n] => n
  | n :: names => n ++ str "," ++ commas names
  end.

(** * Properties *)

(** ** Facts about the string primitives *)

Section SliceFacts.
Context {A : Type}.
Implicit Types xs : list A.

Lemma clamp_bounds n k : 0 <= n -> 0 <= clamp n k <= n.
Proof. unfold clamp. destruct (k <? 0) eqn:E; lia. Qed.

Lemma clamp_nonneg n k : 0 <= k -> clamp n k = Z.min k n.
Proof. unfold clamp. intros Hk. destruct (Z.ltb_spec k 0); [lia | reflexivity]. Qed.

(** At a valid (non-negative) position, [slice] is [take] after [drop]. *)
Lemma slice_nonneg xs a n :
  0 <= a -> 0 <= n ->
  slice xs a (a + n) = take (Z.to_nat n) (drop (Z.to_nat a) xs).
Proof.
  intros Ha Hn. unfold slice. rewrite !clamp_nonneg by lia.
  destruct (Z.le_gt_cases a (Z.of_nat (length xs))) as [Hle | Hgt].
  - rewrite (Z.min_l a) by lia.
    destruct (Z.le_gt_cases (a + n) (Z.of_nat (length xs))).
    + rewrite Z.min_l by lia. f_equal. lia.
    + rewrite Z.min_r by lia.
      rewrite !take_ge; [reflexivity | rewrite length_drop; lia ..].
  - rewrite !drop_ge by lia. by rewrite !take_nil.
Qed.

(** From the end of the text on, every slice is empty. *)
Lemma slice_beyond xs a b : Z.of_nat (length xs) <= a -> slice xs a b = [].
Proof.
  intros Ha. unfold slice.
  pose proof (clamp_bounds (Z.of_nat (length xs)) b ltac:(lia)).
  rewrite (clamp_nonneg _ a) by lia. rewrite Z.min_r by lia.
  replace (Z.to_nat _) with 0%nat by lia. reflexivity.
Qed.

Lemma slice_from_nonneg xs a : 0 <= a -> slice_from xs a = drop (Z.to_nat a) xs.
Proof.
  intros Ha. unfold slice_from. rewrite clamp_nonneg by lia.
  destruct (Z.le_gt_cases a (Z.of_nat (length xs))).
  - by rewrite Z.min_l by lia.
  - rewrite Z.min_r by lia. rewrite !drop_ge; [reflexivity | lia ..].
Qed.

End SliceFacts.

Lemma len_nonneg s : 0 <= len s.
Proof. unfold len. lia. Qed.

Lemma len_app s t : len (s ++ t) = len s + len t.
Proof. unfold len. rewrite length_app. lia. Qed.

Lemma eqb_true a b : eqb a b = true <-> a = b.
Proof. unfold eqb. apply bool_decide_eq_true. Qed.

Lemma eqb_false a b : eqb a b = false <-> a <> b.
Proof. unfold eqb. apply bool_decide_eq_false. Qed.

(** [s[i]] is [undefined] outside of [0 .. s.length - 1]. *)
Lemma char_at_outside s i : i < 0 \/ len s <= i -> char_at s i = None.
Proof.
  unfold char_at, len. intros [H | H].
  - destruct (Z.ltb_spec i 0); [reflexivity | lia].
  - destruct (Z.ltb_spec i 0); [reflexivity |]. apply lookup_ge_None. lia.
Qed.

Lemma char_at_inside s i c : char_at s i = Some c -> 0 <= i < len s.
Proof.
  unfold char_at, len. destruct (Z.ltb_spec i 0) as [Hneg | Hpos]; [discriminate |].
  intros Hc%lookup_lt_Some. lia.
Qed.

(** The matching literal occurs at the cursor: the text from the cursor on
    starts with it. *)
Lemma slice_eq_prefix (s l : jsstring) (i : Z) :
  0 <= i ->
  slice s i (i + len l) = l <-> l `prefix_of` drop (Z.to_nat i) s.
Proof.
  intros Hi. rewrite slice_nonneg by (unfold len; lia).
  unfold len. rewrite Nat2Z.id. split.
  - intros <-. apply prefix_take.
  - intros [k Hk]. rewrite Hk. by rewrite take_app_length.
Qed.

(** ** Facts about the index loop *)

Lemma while_index_ge fuel cond i : i <= while_index fuel cond i.
Proof.
  revert i. induction fuel as [| fuel IH]; intros i; simpl; [lia |].
  destruct (cond i); [| lia]. specialize (IH (i + 1)). lia.
Qed.

Lemma while_index_stay fuel cond i :
  cond i = false -> while_index fuel cond i = i.
Proof. intros H. destruct fuel; simpl; [reflexivity | by rewrite H]. Qed.

Lemma while_index_progress fuel cond i :
  cond i = true -> i < while_index (S fuel) cond i.
Proof.
  intros H. simpl. rewrite H.
  pose proof (while_index_ge fuel cond (i + 1)). lia.
Qed.

(** With the budget the source functions give it, the loop ends because
    its condition fails, as the [while] of the source does. *)
Lemma while_index_exit fuel cond bound i :
  (forall j, bound <= j -> cond j = false) ->
  (Z.to_nat (bound - i) <= fuel)%nat ->
  cond (while_index fuel cond i) = false.
Proof.
  intros Hb. revert i. induction fuel as [| fuel IH]; intros i Hf; simpl.
  - apply Hb. lia.
  - destruct (cond i) eqn:E; [| exact E]. apply IH.
    destruct (Z.le_gt_cases bound i) as [Hle | Hgt].
    + rewrite Hb in E by exact Hle. discriminate.
    + lia.
Qed.

Lemma at_space_inside code i : at_space code i = true -> 0 <= i < len code.
Proof.
  unfold at_space. destruct (char_at code i) as [c |] eqn:E.
  - intros _. by apply char_at_inside in E.
  - discriminate.
Qed.

Lemma in_comment_inside code i : in_comment code i = true -> i < len code.
Proof. unfold in_comment. intros [H _]%andb_prop. lia. Qed.

(** ** The monad *)

Lemma and_then_Ret {A B : Type} (r : Result A) (k : State -> A -> Result B) s b :
  and_then r k = Ret s b -> exists s1 a, r = Ret s1 a /\ k s1 a = Ret s b.
Proof. destruct r as [s1 a | m |]; simpl; [eauto | discriminate ..]. Qed.

Lemma and_then_id {A : Type} (r : Result A) : and_then r Ret = r.
Proof. by destruct r. Qed.

Lemma and_then_assoc {A B C : Type} (r : Result A)
    (k : State -> A -> Result B) (h : State -> B -> Result C) :
  and_then (and_then r k) h = and_then r (fun s a => and_then (k s a) h).
Proof. by destruct r. Qed.

(** C5. [bind] and [pure] satisfy the three monad laws, as functions on
    states: [bind(pure(a), f)] is [f(a)], [bind(p, pure)] is [p], and
    [bind(bind(p, f), g)] is [bind(p, x => bind(f(x), g))]. *)
Theorem bind_pure_monad_laws :
  forall (A B C : Type) (a : A) (p : Parser A)
         (f : A -> Parser B) (g : B -> Parser C) (state : State),
    bind (pure a) f state = f a state
    /\ bind p pure state = p state
    /\ bind (bind p f) g state = bind p (fun x => bind (f x) g) state.
Proof.
  intros A B C a p f g state. split; [| split].
  - reflexivity.
  - unfold bind, pure. apply and_then_id.
  - unfold bind. apply and_then_assoc.
Qed.

(** ** [dry] *)

(** C3. [dry(p)(s)] returns the original state [s] paired with the value
    [p] produces on [s], however far [p] itself moves the cursor; and it
    returns nothing else. *)
Theorem dry_returns_original_state :
  forall (A : Type) (p : Parser A) (s s1 : State) (a : A),
    (p s = Ret s1 a -> dry p s = Ret s a)
    /\ (dry p s = Ret s1 a -> s1 = s /\ exists s2, p s = Ret s2 a).
Proof.
  intros A p s s1 a. unfold dry. split.
  - intros ->. reflexivity.
  - destruct (p s) as [s2 a2 | m |]; simpl; [| discriminate ..].
    intros [= <- <-]. eauto.
Qed.

Lemma dry_returns_original_state_witness :
  dry (match_here (str "ab")) (mkState (str "abc") 0)
  = Ret (mkState (str "abc") 0) true.
Proof.
  apply (proj1 (dry_returns_original_state bool (match_here (str "ab"))
                  (mkState (str "abc") 0) (mkState (str "abc") 2) true)).
  reflexivity.
Defined.

(** ** The skippers *)

(** [skip_comment] returns; without a comment the state is unchanged, and
    a comment moves the cursor forward inside the text. *)
Lemma skip_comment_ret s :
  exists s1 c,
    skip_comment s = Ret s1 c
    /\ code s1 = code s
    /\ (c = false -> s1 = s)
    /\ (c = true -> index s < index s1 /\ index s < len (code s)).
Proof.
  unfold skip_comment.
  destruct (eqb (slice (code s) (index s) (index s + 2)) (str "//")) eqn:E.
  - eexists _, true. split; [reflexivity |]. simpl.
    split; [reflexivity |]. split; [discriminate |]. intros _.
    pose proof (while_index_ge (remaining (code s) (index s + 2))
                  (in_comment (code s)) (index s + 2)).
    split; [lia |].
    destruct (Z.le_gt_cases (len (code s)) (index s)) as [Hle | Hgt]; [| lia].
    apply eqb_true in E. rewrite slice_beyond in E by exact Hle. discriminate.
  - exists s, false. repeat split; [discriminate | discriminate].
Qed.

(** [skip_spaces] returns; without a space at the cursor the state is
    unchanged, and spaces move the cursor forward inside the text. *)
Lemma skip_spaces_ret s :
  exists s1 c,
    skip_spaces s = Ret s1 c
    /\ code s1 = code s
    /\ (c = false -> s1 = s)
    /\ (c = true -> index s < index s1 /\ index s < len (code s)).
Proof.
  unfold skip_spaces. eexists _, _. split; [reflexivity |]. simpl.
  split; [reflexivity |]. split.
  - intros E. rewrite while_index_stay by exact E. by destruct s.
  - intros E. pose proof (at_space_inside _ _ E) as Hin.
    unfold remaining.
    destruct (Z.to_nat (len (code s) - index s)) as [| fuel] eqn:Ef; [lia |].
    pose proof (while_index_progress fuel _ _ E). lia.
Qed.

(** The loops of the two skippers end as the [while] loops of the source
    do, on a false condition: the budget never runs out first. *)
Lemma skip_spaces_stops s s1 c :
  skip_spaces s = Ret s1 c -> at_space (code s1) (index s1) = false.
Proof.
  unfold skip_spaces. intros [= <- _]. simpl.
  apply (while_index_exit _ _ (len (code s))).
  - intros j Hj. destruct (at_space (code s) j) eqn:E; [| reflexivity].
    apply at_space_inside in E. lia.
  - unfold remaining. lia.
Qed.

Lemma skip_comment_stops s s1 :
  skip_comment s = Ret s1 true -> in_comment (code s1) (index s1) = false.
Proof.
  unfold skip_comment.
  destruct (eqb (slice (code s) (index s) (index s + 2)) (str "//"));
    [| discriminate].
  intros [= <-]. simpl. apply (while_index_exit _ _ (len (code s))).
  - intros j Hj. destruct (in_comment (code s) j) eqn:E; [| reflexivity].
    apply in_comment_inside in E. lia.
  - unfold remaining. lia.
Qed.

(** One round of [skip]: a comment skipper, then a space skipper. *)
Lemma skip_round s :
  exists s1 c s2 sp,
    skip_comment s = Ret s1 c /\ skip_spaces s1 = Ret s2 sp
    /\ code s2 = code s
    /\ (c || sp = true -> index s < index s2 /\ index s < len (code s))
    /\ (c || sp = false -> s1 = s /\ s2 = s).
Proof.
  destruct (skip_comment_ret s) as (s1 & c & Hc & Hcode1 & Hc0 & Hc1).
  destruct (skip_spaces_ret s1) as (s2 & sp & Hs & Hcode2 & Hs0 & Hs1).
  exists s1, c, s2, sp. split; [exact Hc |]. split; [exact Hs |].
  split; [congruence |]. split.
  - destruct c, sp; simpl; intros E; try discriminate.
    + destruct (Hc1 eq_refl), (Hs1 eq_refl). lia.
    + destruct (Hc1 eq_refl). rewrite (Hs0 eq_refl). lia.
    + pose proof (Hc0 eq_refl) as Heq. subst s1.
      destruct (Hs1 eq_refl). lia.
  - intros [-> ->]%orb_false_elim.
    rewrite (Hs0 eq_refl). rewrite (Hc0 eq_refl). split; reflexivity.
Qed.

Lemma skip_rec_settled fuel s : settled s -> skip_rec (S fuel) s = Ret s false.
Proof.
  intros [Hc Hs]. cbn [skip_rec]. rewrite Hc. cbn [and_then]. rewrite Hs.
  reflexivity.
Qed.

(** With a budget above the number of remaining characters, [skip_rec]
    returns, at a state where nothing is left to skip. *)
Lemma skip_rec_enough fuel s :
  (remaining (code s) (index s) < fuel)%nat ->
  exists s' b,
    skip_rec fuel s = Ret s' b
    /\ code s' = code s /\ index s <= index s'
    /\ settled s'
    /\ (b = false -> s' = s).
Proof.
  revert s. induction fuel as [| fuel IH]; intros s Hf; [lia |].
  cbn [skip_rec].
  destruct (skip_round s) as (s1 & c & s2 & sp & Hc & Hs & Hcode & Hmove & Hstay).
  rewrite Hc. cbn [and_then]. rewrite Hs. cbn [and_then].
  destruct (c || sp) eqn:E.
  - destruct (Hmove eq_refl) as [Hlt Hin].
    destruct (IH s2) as (s' & b & Hr & Hcode' & Hidx' & Hset & _).
    { unfold remaining in *. rewrite Hcode. lia. }
    rewrite Hr. cbn [and_then]. exists s', true.
    split; [reflexivity |]. split; [congruence |]. split; [lia |].
    split; [exact Hset | discriminate].
  - destruct (Hstay eq_refl) as [E1 E2]. subst s1 s2.
    apply orb_false_elim in E as [-> ->].
    exists s, false. split; [reflexivity |]. split; [reflexivity |].
    split; [lia |]. split; [split; assumption | reflexivity].
Qed.

(** A larger budget does not change what [skip_rec] returns. *)
Lemma skip_rec_mono fuel fuel' s s' b :
  (fuel <= fuel')%nat -> skip_rec fuel s = Ret s' b -> skip_rec fuel' s = Ret s' b.
Proof.
  revert fuel' s s' b. induction fuel as [| fuel IH]; intros fuel' s s' b Hle;
    [discriminate |].
  destruct fuel' as [| fuel']; [lia |]. cbn [skip_rec].
  destruct (skip_comment s) as [s1 c | |]; cbn [and_then]; [| discriminate ..].
  destruct (skip_spaces s1) as [s2 sp | |]; cbn [and_then]; [| discriminate ..].
  destruct (c || sp); [| exact id].
  destruct (skip_rec fuel s2) as [s3 b3 | |] eqn:E; cbn [and_then];
    [| discriminate ..].
  rewrite (IH fuel' s2 s3 b3) by (lia || exact E). exact id.
Qed.

(** [skip] returns on every state, and never moves the cursor back. *)
Lemma skip_ret s :
  exists s' b,
    skip s = Ret s' b /\ code s' = code s /\ index s <= index s'
    /\ settled s' /\ (b = false -> s' = s).
Proof. unfold skip. apply skip_rec_enough. lia. Qed.

(** The embedding of [skip] satisfies the recursive equation the source
    defines it by. *)
Lemma skip_unfold s :
  skip s =
  (var [state, comment] := skip_comment s in
   var [state, spaces] := skip_spaces state in
   if comment || spaces then
     var [state, skipped] := skip state in
     Ret state true
   else
     Ret state false).
Proof.
  unfold skip at 1. cbn [skip_rec].
  destruct (skip_round s) as (s1 & c & s2 & sp & Hc & Hs & Hcode & Hmove & Hstay).
  rewrite Hc. cbn [and_then]. rewrite Hs. cbn [and_then].
  destruct (c || sp) eqn:E; [| reflexivity].
  destruct (Hmove eq_refl) as [Hlt Hin].
  destruct (skip_ret s2) as (s' & b & Hr & _). rewrite Hr.
  rewrite (skip_rec_mono (S (remaining (code s2) (index s2)))
             (remaining (code s) (index s)) s2 s' b).
  - reflexivity.
  - unfold remaining. rewrite Hcode. lia.
  - exact Hr.
Qed.

(** C4. [skip] is idempotent: it returns on every state, and applied to
    the state it returned it returns that same state again, having
    skipped nothing. *)
Theorem skip_idempotent :
  forall s : State,
    exists s' b, skip s = Ret s' b /\ skip s' = Ret s' false.
Proof.
  intros s. destruct (skip_ret s) as (s' & b & Hr & _ & _ & Hset & _).
  exists s', b. split; [exact Hr |]. unfold skip. by apply skip_rec_settled.
Qed.

(** ** [match] *)

Lemma match_here_spec l s :
  0 <= index s ->
  (occurs_at l s -> match_here l s = Ret (advance s (len l)) true)
  /\ (~ occurs_at l s -> match_here l s = Ret s false).
Proof.
  intros Hi. unfold match_here, occurs_at, advance.
  pose proof (slice_eq_prefix (code s) l (index s) Hi) as Hiff.
  destruct (eqb (slice (code s) (index s) (index s + len l)) l) eqn:E.
  - apply eqb_true in E. split; [reflexivity |].
    intros Hn. destruct Hn. by apply Hiff.
  - apply eqb_false in E. split; [| reflexivity].
    intros Ho. destruct E. by apply Hiff.
Qed.

(** On every state [match_here] returns, either [true] with the cursor
    [len(l)] characters further or [false] with the state as it was. *)
Lemma match_here_ret l s :
  match_here l s = Ret (advance s (len l)) true \/ match_here l s = Ret s false.
Proof.
  unfold match_here, advance.
  destruct (eqb (slice (code s) (index s) (index s + len l)) l); [by left | by right].
Qed.

(** C2. [match(L)] first skips trivia.  From the state [s'] the skipping
    produced it either returns [true] with the cursor exactly [len(L)]
    characters further, or returns [false] and [s'] itself.  On a state
    with a valid cursor, the first happens when [L] occurs exactly at the
    cursor of [s'], the second otherwise. *)
Theorem match_literal :
  forall (l : jsstring) (s : State),
    exists s' skipped,
      skip s = Ret s' skipped
      /\ (match_ (Lit l) s = Ret (advance s' (len l)) true
          \/ match_ (Lit l) s = Ret s' false)
      /\ (0 <= index s ->
          (occurs_at l s' -> match_ (Lit l) s = Ret (advance s' (len l)) true)
          /\ (~ occurs_at l s' -> match_ (Lit l) s = Ret s' false)).
Proof.
  intros l s.
  destruct (skip_ret s) as (s' & b & Hr & Hcode & Hidx & _).
  exists s', b. split; [exact Hr |].
  unfold match_. rewrite Hr. cbn [and_then]. split.
  - apply match_here_ret.
  - intros Hi. apply match_here_spec. lia.
Qed.

Lemma match_literal_witness :
  match_ (Lit (str "ab")) (mkState (str "  ab") 0)
  = Ret (mkState (str "  ab") 4) true.
Proof.
  destruct (match_literal (str "ab") (mkState (str "  ab") 0))
    as (s' & skipped & Hskip & _ & Hvalid).
  change (skip (mkState (str "  ab") 0))
    with (Ret (mkState (str "  ab") 2) true) in Hskip.
  injection Hskip as <- <-.
  apply (proj1 (Hvalid ltac:(simpl; lia))).
  exists []. reflexivity.
Defined.

(** The scenario behind the claim: trivia, then the literal. *)
Example match_after_trivia :
  match_ (Lit (str "ab")) (mkState (str "  // c" ++ [newline] ++ str " abc") 0)
  = Ret (mkState (str "  // c" ++ [newline] ++ str " abc") 10) true
  /\ match_ (Lit (str "ab")) (mkState (str "  xab") 0)
     = Ret (mkState (str "  xab") 2) false.
Proof. split; vm_compute; reflexivity. Qed.

(** ** Names and [caller] *)

Lemma drop_cons_char (code : jsstring) (i : Z) :
  0 <= i < len code ->
  exists c, char_at code i = Some c
            /\ drop (Z.to_nat i) code = c :: drop (Z.to_nat (i + 1)) code.
Proof.
  intros Hi. unfold char_at, len in *.
  destruct (Z.ltb_spec i 0) as [Hneg | Hpos]; [lia |].
  destruct (code !! Z.to_nat i) as [c |] eqn:E.
  - exists c. split; [reflexivity |].
    replace (Z.to_nat (i + 1)) with (S (Z.to_nat i)) by lia.
    by apply drop_S.
  - apply lookup_ge_None in E. lia.
Qed.

(** From a valid cursor, the loop of [name_here] collects exactly the
    longest run of identifier characters. *)
Lemma name_loop_spec fuel code i acc :
  0 <= i -> (remaining code i <= fuel)%nat ->
  name_loop fuel code i acc
  = (i + len (ident_prefix (drop (Z.to_nat i) code)),
     acc ++ ident_prefix (drop (Z.to_nat i) code)).
Proof.
  revert i acc. induction fuel as [| fuel IH]; intros i acc Hi Hf.
  - unfold remaining in Hf. rewrite drop_ge by (unfold len in *; lia).
    simpl. rewrite app_nil_r. f_equal. unfold len. simpl. lia.
  - cbn [name_loop]. destruct (Z.ltb_spec i (len code)) as [Hlt | Hge].
    + destruct (drop_cons_char code i ltac:(lia)) as (c & Hc & Hd).
      rewrite Hc, Hd. cbn [andb test to_text existsb ident_prefix].
      rewrite orb_false_r. destruct (is_ident c).
      * rewrite IH by (unfold remaining in *; lia).
        rewrite <- app_assoc. cbn [app]. f_equal. unfold len. simpl. lia.
      * rewrite app_nil_r. f_equal. unfold len. simpl. lia.
    + cbn [andb]. rewrite drop_ge by (unfold len in *; lia).
      simpl. rewrite app_nil_r. f_equal. unfold len. simpl. lia.
Qed.

Lemma name_here_spec s :
  0 <= index s ->
  name_here s = Ret (advance s (len (ident_at s))) (ident_at s).
Proof.
  intros Hi. unfold name_here, ident_at, advance.
  rewrite name_loop_spec by (exact Hi || lia). reflexivity.
Qed.

(** C6, refuted as stated: [caller] does not return the incoming state.
    On ["f("] it returns [true] with the cursor at 2. *)
Lemma caller_consumes :
  ~ (forall (open : jsstring) (s : State), exists b, caller open s = Ret s b).
Proof.
  intros H. destruct (H (str "(") (mkState (str "f(") 0)) as [b Hb].
  vm_compute in Hb. discriminate.
Qed.

Lemma name_loop_ge fuel code i acc : i <= fst (name_loop fuel code i acc).
Proof.
  revert i acc. induction fuel as [| fuel IH]; intros i acc; cbn [name_loop];
    [simpl; lia |].
  destruct ((i <? len code) && test is_ident (char_at code i)); [| simpl; lia].
  specialize (IH (i + 1) (acc ++ to_text (char_at code i))). lia.
Qed.

(** [name_here] returns on every state, the cursor not before where it
    was. *)
Lemma name_here_ret s :
  exists s1 nam, name_here s = Ret s1 nam /\ code s1 = code s /\ index s <= index s1.
Proof.
  unfold name_here.
  pose proof (name_loop_ge (remaining (code s) (index s)) (code s) (index s) [])
    as Hge.
  destruct (name_loop _ _ _ _) as [i nam]. eexists _, _.
  split; [reflexivity |]. simpl in *. split; [reflexivity | lia].
Qed.

(** C6, amended. On every state [caller(open)] returns a boolean and a
    state with the same text and the cursor at or after where it was; it
    is [dry(caller(open))], the form in which [guard] runs its head, that
    returns this boolean with the incoming state.  On a state with a valid
    cursor the boolean tells whether a non-empty identifier followed
    immediately by the [open] literal appears at the cursor, and the state
    of [caller(open)] has the cursor after the identifier and, when the
    literal is there, after the literal. *)
Theorem caller_probe :
  forall (open : jsstring) (s : State),
    exists (s' : State) (b : bool),
      caller open s = Ret s' b
      /\ dry (caller open) s = Ret s b
      /\ code s' = code s /\ index s <= index s'
      /\ (0 <= index s ->
          exists got : bool,
            (got = true <-> occurs_at open (advance s (len (ident_at s))))
            /\ b = (0 <? len (ident_at s)) && got
            /\ s' = advance s (len (ident_at s) + if got then len open else 0)).
Proof.
  intros open s.
  destruct (name_here_ret s) as (s1 & nam & Hn & Hcode1 & Hidx1).
  assert (Hc : exists s' got,
             match_here open s1 = Ret s' got
             /\ caller open s = Ret s' ((0 <? len nam) && got)
             /\ code s' = code s /\ index s <= index s').
  { unfold caller. rewrite Hn. cbn [and_then].
    pose proof (len_nonneg open).
    destruct (match_here_ret open s1) as [Hm | Hm]; rewrite Hm; cbn [and_then];
      eexists _, _; (split; [reflexivity |]); (split; [reflexivity |]);
      simpl; split; (congruence || lia). }
  destruct Hc as (s' & got & Hm & Hc & Hcode & Hidx).
  exists s', ((0 <? len nam) && got).
  split; [exact Hc |]. split; [unfold dry; by rewrite Hc |].
  split; [exact Hcode |]. split; [exact Hidx |].
  intros Hi. rewrite name_here_spec in Hn by exact Hi.
  injection Hn as <- <-. exists got.
  pose proof (len_nonneg (ident_at s)) as Hlen.
  destruct (match_here_spec open (advance s (len (ident_at s)))
              ltac:(simpl; lia)) as [Hyes Hno].
  assert (Hdec : Decision (occurs_at open (advance s (len (ident_at s)))))
    by (unfold occurs_at; apply _).
  destruct Hdec as [Ho | Ho].
  - rewrite (Hyes Ho) in Hm. injection Hm as <- <-.
    split; [tauto |]. split; [reflexivity |].
    unfold advance. simpl. f_equal. lia.
  - rewrite (Hno Ho) in Hm. injection Hm as <- <-.
    split; [split; [discriminate | tauto] |]. split; [reflexivity |].
    unfold advance. simpl. f_equal. lia.
Qed.

Lemma caller_probe_witness :
  exists (s' : State) (b : bool),
    caller (str "(") (mkState (str "f(x)") 0) = Ret s' b
    /\ dry (caller (str "(")) (mkState (str "f(x)") 0)
       = Ret (mkState (str "f(x)") 0) b
    /\ exists got : bool,
         (got = true <-> occurs_at (str "(") (mkState (str "f(x)") 1))
         /\ b = got
         /\ s' = mkState (str "f(x)") (1 + if got then 1 else 0).
Proof.
  destruct (caller_probe (str "(") (mkState (str "f(x)") 0))
    as (s' & b & Hc & Hd & _ & _ & Hvalid).
  exists s', b. split; [exact Hc |]. split; [exact Hd |].
  exact (Hvalid ltac:(simpl; lia)).
Defined.

(** A call head is recognised, with the cursor moved after ["f("]; under
    [dry] the cursor stays. *)
Example caller_on_call :
  caller (str "(") (mkState (str "f(x)") 0) = Ret (mkState (str "f(x)") 2) true
  /\ dry (caller (str "(")) (mkState (str "f(x)") 0)
     = Ret (mkState (str "f(x)") 0) true.
Proof. split; vm_compute; reflexivity. Qed.

(** ** [until] *)








(** ** [list] *)

Lemma and_then_effect {B : Type} (r r' : Result bool) (k : State -> Result B) :
  effect r = effect r' ->
  and_then r (fun s _ => k s) = and_then r' (fun s _ => k s).
Proof.
  destruct r as [s b | m |], r' as [s' b' | m' |]; simpl;
    intros E; congruence.
Qed.

Lemma elem_then_sep_effect {A : Type} (elem : Parser A) (sep sep' : Parser bool) s :
  same_effect sep sep' -> elem_then_sep elem sep s = elem_then_sep elem sep' s.
Proof.
  intros Hs. unfold elem_then_sep. destruct (elem s) as [s1 v | m |]; simpl;
    [| reflexivity ..].
  apply (and_then_effect (sep s1) (sep' s1) (fun st => Ret st v)), Hs.
Qed.

Lemma until_ext {A : Type} (delim : Parser bool) (p q : Parser A) fuel s :
  (forall s, p s = q s) -> until fuel delim p s = until fuel delim q s.
Proof.
  intros Hpq. revert s. induction fuel as [| fuel IH]; intros s; [reflexivity |].
  cbn [until]. destruct (delim s) as [s1 [|] | m |]; simpl; try reflexivity.
  rewrite Hpq. destruct (q s1) as [s2 a | m |]; simpl; try reflexivity.
  by rewrite IH.
Qed.

(** C10. [list] runs [open] and [sep] for their effect on the state only:
    replacing them by parsers that differ in nothing but the booleans they
    return changes nothing.  In particular, when [open] returns, whatever
    boolean it returns, [list] goes on with [until] from the state [open]
    left; and an element followed by [sep] is the element's value with the
    state [sep] left, whatever [sep] answered. *)
Theorem list_ignores_open_and_sep :
  forall (A B : Type) (fuel : nat) (open open' sep sep' close : Parser bool)
         (elem : Parser A) (make : list A -> B),
    same_effect open open' ->
    same_effect sep sep' ->
    forall s : State,
      list_ fuel open sep close elem make s
      = list_ fuel open' sep' close elem make s
      /\ (forall s1 b, open s = Ret s1 b ->
            list_ fuel open sep close elem make s
            = var [state, arr] := until fuel close (elem_then_sep elem sep) s1 in
              Ret state (make arr))
      /\ (forall s1 v s2 b, elem s = Ret s1 v -> sep s1 = Ret s2 b ->
            elem_then_sep elem sep s = Ret s2 v).
Proof.
  intros A B fuel open open' sep sep' close elem make Ho Hs s.
  split; [| split].
  - unfold list_.
    change (fun state : State =>
              var [state0, val] := elem state in
              var [state1, skp] := sep state0 in Ret state1 val)
      with (elem_then_sep elem sep).
    change (fun state : State =>
              var [state0, val] := elem state in
              var [state1, skp] := sep' state0 in Ret state1 val)
      with (elem_then_sep elem sep').
    rewrite (and_then_effect (open s) (open' s)
               (fun st => var [state, arr] :=
                            until fuel close (elem_then_sep elem sep) st in
                          Ret state (make arr))) by apply Ho.
    destruct (open' s) as [s1 b | m |]; simpl; [| reflexivity ..].
    rewrite (until_ext close (elem_then_sep elem sep) (elem_then_sep elem sep'));
      [reflexivity |].
    intros s0. by apply elem_then_sep_effect.
  - intros s1 b Hopen. unfold list_. rewrite Hopen. reflexivity.
  - intros s1 v s2 b He Hsep. unfold elem_then_sep. rewrite He. simpl.
    rewrite Hsep. reflexivity.
Qed.

Lemma same_effect_answering (b : bool) (p : Parser bool) :
  same_effect p (answering b p).
Proof. intros s. unfold effect, answering. by destruct (p s). Qed.

Lemma list_ignores_open_and_sep_witness :
  list_ 3 (match_here (str "(")) (match_here (str ",")) (match_here (str ")"))
    name_here length (mkState (str "a)") 0)
  = list_ 3 (answering true (match_here (str "(")))
      (answering true (match_here (str ","))) (match_here (str ")"))
      name_here length (mkState (str "a)") 0).
Proof.
  apply (list_ignores_open_and_sep jsstring nat 3
           (match_here (str "(")) (answering true (match_here (str "(")))
           (match_here (str ",")) (answering true (match_here (str ",")))
           (match_here (str ")")) name_here length).
  - intros s. unfold effect, answering.
    destruct (match_here (str "(") s); reflexivity.
  - intros s. unfold effect, answering.
    destruct (match_here (str ",") s); reflexivity.
Defined.

(** The scenario of the specification: ["a,b,c)"] read as a list. *)
Example list_a_b_c :
  list_ 4 (match_ (Lit (str "("))) (match_ (Lit (str ","))) (match_ (Lit (str ")")))
    name id (mkState (str "a,b,c)") 0)
  = Ret (mkState (str "a,b,c)") 6) [str "a"; str "b"; str "c"].
Proof. vm_compute. reflexivity. Qed.

(** No opener and no separators: the elements are read all the same. *)
Example list_without_opener_and_separators :
  list_ 3 (match_ (Lit (str "("))) (match_ (Lit (str ","))) (match_ (Lit (str ")")))
    name id (mkState (str "a b)") 0)
  = Ret (mkState (str "a b)") 4) [str "a"; str "b"].
Proof. vm_compute. reflexivity. Qed.

(** ** [grammar] *)

(** Choices whose results [if (got)] rejects are passed over, with their
    effect on the state kept; the first choice with a truthy result is
    returned. *)
Lemma grammar_selects {A : Type} `{Truthy A} (name : jsstring)
    (before after : list (Parser (option A))) (choice : Parser (option A))
    (s s1 s2 : State) (a : A) :
  passes before s s1 ->
  choice s1 = Ret s2 (Some a) ->
  truthy a = true ->
  grammar name (before ++ choice :: after) s = Ret s2 a.
Proof.
  intros Hp Hc Ht.
  induction Hp as [s | c cs s s' got s1 Hcs Hgot Hp IH]; cbn [app grammar].
  - rewrite Hc. cbn [and_then]. by rewrite Ht.
  - rewrite Hcs. cbn [and_then]. destruct got as [a' |].
    + cbn in Hgot. rewrite Hgot. by apply IH.
    + by apply IH.
Qed.

(** When every choice is passed over, the parse aborts with "Expected
    <name>" at the offset reached. *)
Lemma grammar_exhausted {A : Type} `{Truthy A} (name : jsstring)
    (choices : list (Parser (option A))) (s s' : State) :
  passes choices s s' ->
  @grammar A _ name choices s
  = Throw (str "Expected " ++ name ++ str ":" ++ [newline]
             ++ highlight (index s') (index s' + 1) (code s')).
Proof.
  induction 1 as [s | c cs s s1 got s' Hcs Hgot Hp IH]; cbn [grammar].
  - reflexivity.
  - rewrite Hcs. cbn [and_then]. destruct got as [a' |].
    + cbn in Hgot. rewrite Hgot. exact IH.
    + exact IH.
Qed.

(** The scenario of the specification: on ["xy"], with alternatives headed
    by ["x"] and by ["xy"], the first one is taken. *)
Example grammar_first_alternative_wins :
  grammar (str "X")
    [guard (match_ (Lit (str "x"))) (bind (consume (str "x")) (fun _ => pure 1));
     guard (match_ (Lit (str "xy"))) (bind (consume (str "xy")) (fun _ => pure 2))]
    (mkState (str "xy") 0)
  = Ret (mkState (str "xy") 1) 1.
Proof. vm_compute. reflexivity. Qed.

(** C1, at the input where the code departs from it: a choice that returns
    the empty string, a result that is not absent, is passed over, and
    [grammar] aborts with "Expected <name>" instead of returning it. *)
Theorem grammar_passes_over_empty_string :
  forall (name : jsstring) (s : State),
    grammar name [pure (Some (str ""))] s
    = Throw (str "Expected " ++ name ++ str ":" ++ [newline]
               ++ highlight (index s) (index s + 1) (code s)).
Proof. intros name s. reflexivity. Qed.

(** With [null] alone standing for "absent", the empty string is returned. *)
Remark grammar_by_null_returns_empty_string (name : jsstring) (s : State) :
  grammar_by_null name [pure (Some (str ""))] s = Ret s (str "").
Proof. reflexivity. Qed.

(** The same with an alternative of the demonstration grammar: before
    [")"] the guarded [name] applies and returns the empty name, and the
    selector aborts. *)
Example grammar_passes_over_empty_name :
  guard (match_ (Lit (str ""))) name (mkState (str ")") 0)
  = Ret (mkState (str ")") 0) (Some (str ""))
  /\ grammar (str "Name") [guard (match_ (Lit (str ""))) name]
       (mkState (str ")") 0)
     = Throw (str "Expected Name:" ++ [newline] ++ highlight 0 1 (str ")")).
Proof. split; vm_compute; reflexivity. Qed.

(** ** The demonstration grammar *)

Example sbt_proper_binary_tree :
  sbt 6 (mkState (str "(this ((is surely) (((a proper) string) (binary tree))))") 0)
  = Ret (mkState (str "(this ((is surely) (((a proper) string) (binary tree))))") 56)
      (Node (Leaf (str "this"))
         (Node (Node (Leaf (str "is")) (Leaf (str "surely")))
            (Node (Node (Node (Leaf (str "a")) (Leaf (str "proper")))
                     (Leaf (str "string")))
               (Node (Leaf (str "binary")) (Leaf (str "tree")))))).
Proof. vm_compute. reflexivity. Qed.

(** The diagnostic span of the next two statements, character by
    character: line 0, the text, and the empty span marked at offset 2. *)
Example highlight_end_of_text :
  highlight 2 3 (str "(a")
  = str "   0 | (a" ++ open_color ++ open ++ close ++ close_color ++ [newline].
Proof. vm_compute. reflexivity. Qed.

(** C8, at the input of the claim: with any budget that lets the recursion
    finish, parsing ["(a"] aborts at offset 2 with the diagnostic
    "Expected StrBinTree", and not with "Expected ')'": the empty name
    read at the end of the text is passed over by [grammar]. *)
Theorem sbt_unclosed_node :
  forall fuel : nat,
    sbt (S (S fuel)) (mkState (str "(a") 0)
    = Throw (str "Expected StrBinTree:" ++ [newline] ++ highlight 2 3 (str "(a"))
    /\ sbt (S (S fuel)) (mkState (str "(a") 0)
       <> Throw (str "Expected ')':" ++ [newline] ++ highlight 2 3 (str "(a")).
Proof.
  intros fuel.
  assert (H : sbt (S (S fuel)) (mkState (str "(a") 0)
              = Throw (str "Expected StrBinTree:" ++ [newline]
                         ++ highlight 2 3 (str "(a")))
    by (vm_compute; reflexivity).
  split; [exact H |]. rewrite H. vm_compute. discriminate.
Qed.

(** With [null] alone standing for "absent", the diagnostic is the one of
    the specification: "Expected ')'" at offset 2. *)
Remark sbt_by_null_unclosed_node (fuel : nat) :
  sbt_by_null (S (S fuel)) (mkState (str "(a") 0)
  = Throw (str "Expected ')':" ++ [newline] ++ highlight 2 3 (str "(a")).
Proof. vm_compute. reflexivity. Qed.

(** ** [highlight] *)

(** The line counter of [highlight] counts the newlines before the index. *)
Lemma count_lines_spec n code k line :
  count_lines n code (Z.of_nat k) line
  = line + count_newlines (take n (drop k code)).
Proof.
  revert k line. induction n as [| n IH]; intros k line; cbn [count_lines].
  - rewrite take_0. simpl. lia.
  - replace (Z.of_nat k + 1) with (Z.of_nat (S k)) by lia. rewrite IH.
    unfold char_at. destruct (Z.ltb_spec (Z.of_nat k) 0) as [Hneg | _]; [lia |].
    rewrite Nat2Z.id. destruct (code !! k) as [c |] eqn:E.
    + rewrite (drop_S _ _ _ E). cbn [take count_newlines].
      destruct (is_newline c); lia.
    + apply lookup_ge_None in E.
      rewrite !drop_ge by lia. rewrite !take_nil. reflexivity.
Qed.

Lemma line_of_spec code index :
  line_of code index = count_newlines (take (Z.to_nat index) code).
Proof. unfold line_of. rewrite (count_lines_spec _ code 0 0). by rewrite drop_0. Qed.

Lemma count_newlines_nonneg s : 0 <= count_newlines s.
Proof. induction s as [| c s IH]; simpl; [lia |]. destruct (is_newline c); lia. Qed.

Lemma slice_inside {A : Type} (xs : list A) a b :
  0 <= a -> 0 <= b <= Z.of_nat (length xs) ->
  slice xs a b = take (Z.to_nat (b - a)) (drop (Z.to_nat a) xs).
Proof.
  intros Ha Hb. unfold slice. rewrite !clamp_nonneg by lia.
  rewrite (Z.min_l b) by lia.
  destruct (Z.le_gt_cases a (Z.of_nat (length xs))).
  - by rewrite Z.min_l by lia.
  - rewrite Z.min_r by lia.
    replace (Z.to_nat (b - Z.of_nat (length xs))) with 0%nat by lia.
    replace (Z.to_nat (b - a)) with 0%nat by lia. reflexivity.
Qed.

(** The loop of [highlight] prints one row per line, in order. *)
Lemma render_rows fl tl bfl lines ls :
  forall i text,
    0 <= bfl -> 0 <= i ->
    (forall (j : nat) x, ls !! j = Some x ->
                         lines !! (Z.to_nat (bfl + i) + j)%nat = Some x) ->
    render fl tl bfl ls i text
    = text ++ concat (map (row fl tl lines)
                        (seqZ (bfl + i) (Z.of_nat (length ls)))).
Proof.
  induction ls as [| l ls IH]; intros i text Hb Hi Hl; cbn [render].
  - simpl. by rewrite app_nil_r.
  - rewrite IH; [| lia | lia |].
    + rewrite (seqZ_cons (bfl + i)) by (cbn [length]; lia). cbn [map concat].
      replace (Z.succ (bfl + i)) with (bfl + (i + 1)) by lia.
      replace (Z.pred (Z.of_nat (length (l :: ls))))
        with (Z.of_nat (length ls)) by (cbn [length]; lia).
      specialize (Hl 0%nat l eq_refl). rewrite Nat.add_0_r in Hl.
      unfold row at 2, line_at. rewrite Hl.
      by rewrite <- !app_assoc.
    + intros j x Hj. specialize (Hl (S j) x Hj).
      replace (Z.to_nat (bfl + (i + 1)) + j)%nat
        with (Z.to_nat (bfl + i) + S j)%nat by lia.
      exact Hl.
Qed.

Lemma split_on_nonempty c s : split_on c s <> [].
Proof.
  destruct s as [| x s]; simpl; [discriminate |].
  destruct (N.eqb x c); [discriminate |]. destruct (split_on c s); discriminate.
Qed.

(** The number field is the last four characters of the numeral padded
    with four spaces. *)
Lemma pad4_field numb :
  length (pad4 numb) = 4%nat
  /\ pad4 numb `suffix_of` (str "    " ++ of_int numb).
Proof.
  unfold pad4, slice_from. split; [| apply suffix_drop].
  rewrite length_drop, length_app. unfold clamp.
  change (length (str "    ")) with 4%nat.
  destruct (Z.ltb_spec (-4) 0); lia.
Qed.

Lemma pad4_right_aligned_upto_9999 :
  forallb (fun numb =>
             bool_decide (pad4 numb
                          = replicate (4 - length (of_int numb)) 32%N
                              ++ of_int numb))
    (seqZ 0 10000) = true.
Proof. vm_compute. reflexivity. Qed.

(** Up to 9999 the field is the numeral itself, right-aligned. *)
Lemma pad4_right_aligned numb :
  0 <= numb <= 9999 ->
  pad4 numb = replicate (4 - length (of_int numb)) 32%N ++ of_int numb.
Proof.
  intros Hn. pose proof pad4_right_aligned_upto_9999 as H.
  rewrite forallb_forall in H. specialize (H numb).
  apply bool_decide_eq_true in H; [exact H |].
  apply list_elem_of_In, elem_of_seqZ. lia.
Qed.

(** C9, refuted as stated: beyond line 9999 the number field is not the
    line number.  In a text of 10000 newlines, with the span at its end on
    line 10000, the rows of lines 9997 to 10000 are printed, and the row of
    line 10000 starts with the field ["0000"], which is not the numeral
    10000 behind any number of spaces. *)
Lemma highlight_line_number_wraps :
  line_of (replicate (Z.to_nat 10000) newline) 10000 = 10000
  /\ highlight 10000 10000 (replicate (Z.to_nat 10000) newline)
     = str "9997 | " ++ [newline] ++ str "9998 | " ++ [newline]
         ++ str "9999 | " ++ [newline]
         ++ str "0000 | " ++ open_color ++ open ++ close ++ close_color
         ++ [newline]
  /\ pad4 10000 = str "0000"
  /\ ~ exists k : nat, pad4 10000 = replicate k 32%N ++ of_int 10000.
Proof.
  split; [vm_compute; reflexivity |].
  split; [vm_compute; reflexivity |].
  split; [vm_compute; reflexivity |].
  intros [k Hk]. apply (f_equal length) in Hk.
  rewrite length_app, length_replicate in Hk.
  change (length (pad4 10000)) with 4%nat in Hk.
  change (length (of_int 10000)) with 5%nat in Hk. lia.
Qed.

(** C9, amended. The diagnostic of [highlight] is the sequence of the rows of the
    lines numbered from [max(from_line - 3, 0)] up to, but not including,
    [min(to_line + 3, number of lines)], where [from_line] and [to_line]
    are the lines of the two ends of the span (the newlines before them):
    it contains only lines from at most 3 before the first line of the span
    through at most 3 after its last line.  Each row starts with a field of
    exactly four characters, the end of the decimal line number padded with
    spaces on the left; up to line 9999 this is the whole number,
    right-aligned. *)
Theorem highlight_window :
  forall (from_index to_index : Z) (code : jsstring),
    let from_line := line_of code from_index in
    let to_line := line_of code to_index in
    let lines := split_on newline (marked from_index to_index code) in
    let first := Z.max (from_line - 3) 0 in
    let last := Z.min (to_line + 3) (Z.of_nat (length lines)) in
    highlight from_index to_index code
    = concat (map (row from_line to_line lines) (seqZ first (last - first)))
    /\ from_line = count_newlines (take (Z.to_nat from_index) code)
    /\ to_line = count_newlines (take (Z.to_nat to_index) code)
    /\ (forall numb, numb ∈ seqZ first (last - first) ->
          from_line - 3 <= numb <= to_line + 3
          /\ 0 <= numb < Z.of_nat (length lines))
    /\ (forall numb, length (pad4 numb) = 4%nat
                     /\ pad4 numb `suffix_of` (str "    " ++ of_int numb))
    /\ (forall numb, 0 <= numb <= 9999 ->
          pad4 numb = replicate (4 - length (of_int numb)) 32%N ++ of_int numb).
Proof.
  intros from_index to_index code from_line to_line lines first last.
  assert (Htl : 0 <= to_line).
  { unfold to_line. rewrite line_of_spec. apply count_newlines_nonneg. }
  assert (Hlines : (0 < length lines)%nat).
  { pose proof (split_on_nonempty newline (marked from_index to_index code)).
    fold lines in H. destruct lines; [congruence | simpl; lia]. }
  assert (Hfirst : 0 <= first /\ from_line - 3 <= first) by (unfold first; lia).
  assert (Hlast : 0 <= last <= Z.of_nat (length lines) /\ last <= to_line + 3)
    by (unfold last; lia).
  split; [| split; [apply line_of_spec | split; [apply line_of_spec |]]].
  - unfold highlight. fold from_line to_line.
    change (split_on newline _) with lines. cbv zeta. fold first last.
    clearbody first last.
    rewrite (slice_inside lines first last) by lia.
    rewrite (render_rows from_line to_line first lines); [| lia | lia |].
    + cbn [app]. rewrite Z.add_0_r. rewrite length_take, length_drop.
      destruct (Z.le_gt_cases last first).
      * rewrite (seqZ_nil first (last - first)) by lia.
        replace (Z.to_nat (last - first)) with 0%nat by lia. reflexivity.
      * replace (Z.of_nat (Z.to_nat (last - first)
                             `min` (length lines - Z.to_nat first)))
          with (last - first) by lia.
        reflexivity.
    + intros j x Hj. rewrite Z.add_0_r.
      apply lookup_take_Some in Hj as [Hj _]. by rewrite lookup_drop in Hj.
  - split; [| split; [apply pad4_field | apply pad4_right_aligned]].
    clearbody first last.
    intros numb Hin%elem_of_seqZ. lia.
Qed.

Lemma highlight_window_witness :
  highlight 2 3 (str "(a")
  = concat (map (row 0 0 (split_on newline (marked 2 3 (str "(a")))) (seqZ 0 1))
  /\ (line_of (str "(a") 2 - 3 <= 0 <= line_of (str "(a") 3 + 3)
  /\ pad4 0 = replicate (4 - length (of_int 0)) 32%N ++ of_int 0.
Proof.
  destruct (highlight_window 2 3 (str "(a")) as (H1 & _ & _ & H4 & _ & H6).
  split; [exact H1 |]. split.
  - refine (proj1 (H4 0 _)). apply elem_of_seqZ. vm_compute.
    split; [discriminate | reflexivity].
  - apply H6. lia.
Defined.

(** * Further properties of the module *)

(** ** Runs of characters *)

Lemma run_of_split cls s :
  exists rest,
    s = run_of cls s ++ rest
    /\ Forall (fun c => cls c = true) (run_of cls s)
    /\ match rest with [] => True | c :: _ => cls c = false end.
Proof.
  induction s as [| c s (rest & Hs & Hall & Hrest)]; simpl.
  - exists []. split; [reflexivity |]. split; [constructor | exact I].
  - destruct (cls c) eqn:E.
    + exists rest. split; [simpl; congruence |]. split; [| exact Hrest].
      by constructor.
    + exists (c :: s). split; [reflexivity |]. split; [constructor | exact E].
Qed.

Lemma run_of_app cls a b :
  Forall (fun c => cls c = true) a ->
  match b with [] => True | c :: _ => cls c = false end ->
  run_of cls (a ++ b) = a.
Proof.
  intros Ha Hb. induction Ha as [| c a Hc Ha IH]; simpl.
  - destruct b as [| c b]; simpl; [reflexivity | by rewrite Hb].
  - by rewrite Hc, IH.
Qed.

Lemma ident_prefix_run s : ident_prefix s = run_of is_ident s.
Proof. induction s as [| c s IH]; simpl; [reflexivity | by rewrite IH]. Qed.

Lemma while_index_between fuel cond i j :
  i <= j < while_index fuel cond i -> cond j = true.
Proof.
  revert i. induction fuel as [| fuel IH]; intros i; simpl; [lia |].
  destruct (cond i) eqn:E; [| lia].
  intros Hj. destruct (Z.eq_dec i j) as [<- | Hne]; [exact E |].
  apply (IH (i + 1)). lia.
Qed.

(** A loop whose condition tests the class of the character at the index
    walks over the longest run of the class. *)
Lemma while_index_run cls cond code fuel i :
  0 <= i -> (remaining code i <= fuel)%nat ->
  (forall j c, char_at code j = Some c -> cond j = cls c) ->
  (forall j, len code <= j -> cond j = false) ->
  while_index fuel cond i = i + len (run_of cls (drop (Z.to_nat i) code)).
Proof.
  intros Hi Hf Hin Hout. revert i Hi Hf.
  induction fuel as [| fuel IH]; intros i Hi Hf.
  - unfold remaining in Hf. rewrite drop_ge by (unfold len in *; lia).
    simpl. unfold len. simpl. lia.
  - cbn [while_index]. destruct (Z.le_gt_cases (len code) i) as [Hge | Hlt].
    + rewrite Hout by exact Hge. rewrite drop_ge by (unfold len in *; lia).
      unfold len. simpl. lia.
    + destruct (drop_cons_char code i ltac:(lia)) as (c & Hc & Hd).
      rewrite (Hin _ _ Hc), Hd. cbn [run_of]. destruct (cls c).
      * rewrite IH by (unfold remaining in *; lia).
        unfold len. cbn [length]. lia.
      * unfold len. simpl. lia.
Qed.

Lemma advance_0 s : advance s 0 = s.
Proof. destruct s. unfold advance. simpl. f_equal. lia. Qed.

(** ** What the skippers consume *)

Lemma skip_spaces_spec s :
  0 <= index s ->
  skip_spaces s
  = Ret (advance s (len (run_of is_space (drop (Z.to_nat (index s)) (code s)))))
        (at_space (code s) (index s)).
Proof.
  intros Hi. unfold skip_spaces, advance.
  rewrite (while_index_run is_space (at_space (code s)) (code s)).
  - reflexivity.
  - exact Hi.
  - lia.
  - intros j c Hc. unfold at_space. rewrite Hc.
    cbn [test to_text existsb]. apply orb_false_r.
  - intros j Hj. unfold at_space. by rewrite char_at_outside by lia.
Qed.

Lemma skip_comment_spec s :
  0 <= index s ->
  (occurs_at (str "//") s ->
   skip_comment s
   = Ret (advance s (2 + len (run_of (fun c => negb (is_newline c))
                                (drop (Z.to_nat (index s + 2)) (code s)))))
         true)
  /\ (~ occurs_at (str "//") s -> skip_comment s = Ret s false).
Proof.
  intros Hi. unfold skip_comment, occurs_at, advance.
  pose proof (slice_eq_prefix (code s) (str "//") (index s) Hi) as Hiff.
  change (index s + len (str "//")) with (index s + 2) in Hiff.
  destruct (eqb (slice (code s) (index s) (index s + 2)) (str "//")) eqn:E.
  - apply eqb_true in E. split; [| intros Hn; destruct Hn; by apply Hiff].
    intros _.
    rewrite (while_index_run (fun c => negb (is_newline c))
               (in_comment (code s)) (code s)).
    + do 2 f_equal. lia.
    + lia.
    + lia.
    + intros j c Hc. unfold in_comment. rewrite Hc.
      apply char_at_inside in Hc.
      destruct (Z.ltb_spec j (len (code s))); [| lia].
      cbn [andb test to_text existsb]. by rewrite orb_false_r.
    + intros j Hj. unfold in_comment.
      destruct (Z.ltb_spec j (len (code s))); [lia | reflexivity].
  - apply eqb_false in E. split; [| reflexivity].
    intros Ho. destruct E. by apply Hiff.
Qed.

(** X1. [skip_spaces] consumes exactly the longest run of whitespace at a
    valid cursor: the text from the cursor on is that run followed by a
    rest that does not start with whitespace, the cursor ends after the
    run, and the answer tells whether the run is non-empty. *)
Theorem skip_spaces_longest_run :
  forall s : State,
    0 <= index s ->
    exists ws rest,
      drop (Z.to_nat (index s)) (code s) = ws ++ rest
      /\ Forall (fun c => is_space c = true) ws
      /\ match rest with [] => True | c :: _ => is_space c = false end
      /\ skip_spaces s = Ret (advance s (len ws)) (negb (bool_decide (ws = []))).
Proof.
  intros s Hi.
  destruct (run_of_split is_space (drop (Z.to_nat (index s)) (code s)))
    as (rest & Hsplit & Hall & Hrest).
  exists (run_of is_space (drop (Z.to_nat (index s)) (code s))), rest.
  split; [exact Hsplit |]. split; [exact Hall |]. split; [exact Hrest |].
  rewrite skip_spaces_spec by exact Hi. f_equal.
  unfold at_space.
  destruct (Z.le_gt_cases (len (code s)) (index s)) as [Hge | Hlt].
  - rewrite char_at_outside by lia.
    rewrite drop_ge by (unfold len in *; lia). reflexivity.
  - destruct (drop_cons_char (code s) (index s) ltac:(lia)) as (c & Hc & Hd).
    rewrite Hc, Hd. cbn [test to_text existsb run_of]. rewrite orb_false_r.
    by destruct (is_space c).
Qed.

Lemma skip_spaces_longest_run_witness :
  exists ws rest,
    drop (Z.to_nat 1) (str "a  b") = ws ++ rest
    /\ Forall (fun c => is_space c = true) ws
    /\ match rest with [] => True | c :: _ => is_space c = false end
    /\ skip_spaces (mkState (str "a  b") 1)
       = Ret (advance (mkState (str "a  b") 1) (len ws))
             (negb (bool_decide (ws = []))).
Proof.
  apply (skip_spaces_longest_run (mkState (str "a  b") 1)). simpl. lia.
Defined.

Lemma skip_comment_to_end_of_line_aux s :
  0 <= index s ->
  (occurs_at (str "//") s ->
   exists body rest,
     drop (Z.to_nat (index s)) (code s) = str "//" ++ body ++ rest
     /\ skip_comment s = Ret (advance s (2 + len body)) true)
  /\ (~ occurs_at (str "//") s -> skip_comment s = Ret s false).
Proof.
  intros Hi. destruct (skip_comment_spec s Hi) as [Hyes Hno].
  split; [| exact Hno]. intros Ho.
  destruct (run_of_split (fun c => negb (is_newline c))
              (drop (Z.to_nat (index s + 2)) (code s)))
    as (rest & Hsplit & _).
  eexists _, rest. split; [| exact (Hyes Ho)].
  destruct Ho as [k Hk].
  assert (Hk2 : drop (Z.to_nat (index s + 2)) (code s) = k).
  { replace (Z.to_nat (index s + 2)) with (Z.to_nat (index s) + 2)%nat by lia.
    rewrite <- drop_drop, Hk. reflexivity. }
  rewrite Hk. f_equal. rewrite Hk2 in Hsplit |- *. exact Hsplit.
Qed.

(** X2. At a non-negative cursor [skip_comment] consumes a comment up to, and not
    including, the end of its line: when ["//"] occurs at the cursor the
    text goes on with a body without newline and a rest that is empty or
    starts with a newline, and the cursor ends after the body with the
    answer [true]; otherwise the state is returned as it is with
    [false]. *)
Theorem skip_comment_to_end_of_line :
  forall s : State,
    0 <= index s ->
    (occurs_at (str "//") s ->
     exists body rest,
       drop (Z.to_nat (index s)) (code s) = str "//" ++ body ++ rest
       /\ Forall (fun c => is_newline c = false) body
       /\ match rest with [] => True | c :: _ => is_newline c = true end
       /\ skip_comment s = Ret (advance s (2 + len body)) true)
    /\ (~ occurs_at (str "//") s -> skip_comment s = Ret s false).
Proof.
  intros s Hi. destruct (skip_comment_spec s Hi) as [Hyes Hno].
  split; [| exact Hno]. intros Ho.
  destruct (run_of_split (fun c => negb (is_newline c))
              (drop (Z.to_nat (index s + 2)) (code s)))
    as (rest & Hsplit & Hall & Hrest).
  eexists _, rest. split; [| split; [| split; [| exact (Hyes Ho)]]].
  - destruct Ho as [k Hk].
    assert (Hk2 : drop (Z.to_nat (index s + 2)) (code s) = k).
    { replace (Z.to_nat (index s + 2)) with (Z.to_nat (index s) + 2)%nat by lia.
      rewrite <- drop_drop, Hk. reflexivity. }
    rewrite Hk. f_equal. rewrite Hk2 in Hsplit |- *. exact Hsplit.
  - eapply Forall_impl; [| exact Hall]. intros c Hc. simpl in Hc.
    by destruct (is_newline c).
  - destruct rest as [| c rest]; [exact I |]. by destruct (is_newline c).
Qed.

Lemma skip_comment_to_end_of_line_witness :
  exists body rest,
    drop (Z.to_nat 0) (str "//ab" ++ [newline] ++ str "c")
    = str "//" ++ body ++ rest
    /\ Forall (fun c => is_newline c = false) body
    /\ match rest with [] => True | c :: _ => is_newline c = true end
    /\ skip_comment (mkState (str "//ab" ++ [newline] ++ str "c") 0)
       = Ret (advance (mkState (str "//ab" ++ [newline] ++ str "c") 0)
                (2 + len body)) true.
Proof.
  apply (proj1 (skip_comment_to_end_of_line
                  (mkState (str "//ab" ++ [newline] ++ str "c") 0)
                  ltac:(simpl; lia))).
  exists (str "ab" ++ [newline] ++ str "c"). reflexivity.
Defined.

(** ** What [skip] guarantees *)

Lemma skip_rec_moves fuel s s' :
  skip_rec fuel s = Ret s' true -> index s < index s'.
Proof.
  destruct fuel as [| fuel]; [discriminate |]. cbn [skip_rec].
  destruct (skip_round s) as (s1 & c & s2 & sp & Hc & Hs & Hcode & Hmove & Hstay).
  rewrite Hc. cbn [and_then]. rewrite Hs. cbn [and_then].
  destruct (c || sp); [| discriminate].
  destruct (Hmove eq_refl) as [Hlt _].
  destruct (Nat.lt_ge_cases (remaining (code s2) (index s2)) fuel) as [Hf | Hf].
  - destruct (skip_rec_enough fuel s2 Hf) as (s3 & b & Hr & _ & Hidx & _).
    rewrite Hr. cbn [and_then]. intros [= <-]. lia.
  - destruct (skip_rec fuel s2) as [s3 b | m |] eqn:E; cbn [and_then];
      [| discriminate ..].
    intros [= <-].
    pose proof (skip_rec_mono fuel (S (remaining (code s2) (index s2))) s2 s3 b
                  ltac:(lia) E) as E'.
    destruct (skip_rec_enough (S (remaining (code s2) (index s2))) s2 ltac:(lia))
      as (s4 & b4 & Hr & _ & Hidx & _).
    rewrite Hr in E'. injection E' as <- <-. lia.
Qed.

(** X3. [skip] returns on every state.  It leaves the text as it is and
    the cursor at or after where it was; its answer is [true] exactly when
    the cursor moved; and where it stops there is no trivia left: the
    character at the cursor is not whitespace and, at a non-negative cursor,
    ["//"] does not occur there. *)
Theorem skip_stops_after_trivia :
  forall s : State,
    exists s' b,
      skip s = Ret s' b
      /\ code s' = code s
      /\ index s <= index s'
      /\ (b = true <-> index s < index s')
      /\ (forall c, char_at (code s') (index s') = Some c -> is_space c = false)
      /\ (0 <= index s -> ~ occurs_at (str "//") s').
Proof.
  intros s. destruct (skip_ret s) as (s' & b & Hr & Hcode & Hidx & [Hsc Hss] & Hb).
  exists s', b. split; [exact Hr |]. split; [exact Hcode |]. split; [exact Hidx |].
  split; [| split].
  - split.
    + intros ->. by apply (skip_rec_moves _ _ _ Hr).
    + intros Hlt. destruct b; [reflexivity |]. rewrite (Hb eq_refl) in Hlt. lia.
  - intros c Hc. pose proof (skip_spaces_stops _ _ _ Hss) as E.
    unfold at_space in E. rewrite Hc in E. cbn [test to_text existsb] in E.
    by rewrite orb_false_r in E.
  - intros Hi Ho. destruct (skip_comment_spec s' ltac:(lia)) as [Hyes _].
    rewrite (Hyes Ho) in Hsc. discriminate.
Qed.

Lemma skip_stops_after_trivia_witness :
  exists s' b,
    skip (mkState (str " //x") 0) = Ret s' b
    /\ code s' = str " //x"
    /\ 0 <= index s'
    /\ (b = true <-> 0 < index s')
    /\ (forall c, char_at (code s') (index s') = Some c -> is_space c = false)
    /\ ~ occurs_at (str "//") s'.
Proof.
  destruct (skip_stops_after_trivia (mkState (str " //x") 0))
    as (s' & b & H1 & H2 & H3 & H4 & H5 & H6).
  exists s', b. repeat split; try assumption; try apply H4.
  apply H6. simpl. lia.
Defined.

(** The parsers that begin by skipping give the same result before and
    after a [skip]. *)
Lemma skip_absorbed {A : Type} (k : State -> Result A) s s1 b :
  skip s = Ret s1 b ->
  (var [state, _skipped] := skip s1 in k state)
  = (var [state, _skipped] := skip s in k state).
Proof.
  intros Hr. destruct (skip_ret s) as (s' & b' & Hr' & _ & _ & Hset & _).
  rewrite Hr in Hr'. injection Hr' as <- <-.
  rewrite Hr. unfold skip at 1. rewrite (skip_rec_settled _ _ Hset). reflexivity.
Qed.

(** X4. Skipping first changes nothing for the parsers that skip
    themselves: on the state [skip] returned, [match], [consume], [name],
    [name1], [get_char], [done] and [guard] give what they give on the
    original state. *)
Theorem leading_skip_is_absorbed :
  forall (A : Type) (s s1 : State) (b : bool) (m : Matcher) (l : jsstring)
         (head : Parser bool) (body : Parser A),
    skip s = Ret s1 b ->
    match_ m s1 = match_ m s
    /\ consume l s1 = consume l s
    /\ name s1 = name s
    /\ name1 s1 = name1 s
    /\ get_char s1 = get_char s
    /\ done s1 = done s
    /\ guard head body s1 = guard head body s.
Proof.
  intros A s s1 b m l head body Hr.
  assert (Hm : forall m', match_ m' s1 = match_ m' s).
  { intros m'. unfold match_.
    exact (skip_absorbed (fun state => match m' with
                                       | Lit l' => match_here l' state
                                       | Rx regex => match_here_regex regex state
                                       end) s s1 b Hr). }
  assert (Hn : name s1 = name s) by exact (skip_absorbed name_here s s1 b Hr).
  split; [apply Hm |].
  split; [unfold consume; by rewrite Hm |].
  split; [exact Hn |].
  split; [unfold name1; by rewrite Hn |].
  split; [exact (skip_absorbed _ s s1 b Hr) |].
  split; [exact (skip_absorbed _ s s1 b Hr) |].
  exact (skip_absorbed _ s s1 b Hr).
Qed.

Lemma leading_skip_is_absorbed_witness :
  name (mkState (str "  ab") 2) = name (mkState (str "  ab") 0).
Proof.
  apply (proj1 (proj2 (proj2
           (leading_skip_is_absorbed unit (mkState (str "  ab") 0)
              (mkState (str "  ab") 2) true (Lit []) [] (pure true) (pure tt)
              eq_refl)))).
Defined.

(** ** The cursor stays in the text *)

Lemma prefix_within (l : jsstring) (s : State) :
  valid s -> occurs_at l s -> index s + len l <= len (code s).
Proof.
  intros [Hlo Hhi] [k Hk]. unfold occurs_at, len in *.
  apply (f_equal length) in Hk. rewrite length_drop, length_app in Hk. lia.
Qed.

Lemma steady_skip_spaces : steady skip_spaces.
Proof.
  intros s s' a H.
  destruct (skip_spaces_ret s) as (s1 & c & Hr & Hcode & Hc0 & Hc1).
  rewrite Hr in H. injection H as <- <-. split; [exact Hcode |].
  assert (Hle : index s <= index s1).
  { destruct c; [destruct (Hc1 eq_refl); lia | rewrite (Hc0 eq_refl); lia]. }
  split; [exact Hle |]. intros [Hlo Hhi]. split; [lia |].
  rewrite skip_spaces_spec in Hr by exact Hlo. injection Hr as <- _.
  destruct (run_of_split is_space (drop (Z.to_nat (index s)) (code s)))
    as (rest & Hsplit & _).
  apply (f_equal length) in Hsplit. rewrite length_drop, length_app in Hsplit.
  unfold advance, len in *. simpl. lia.
Qed.

Lemma steady_skip_comment : steady skip_comment.
Proof.
  intros s s' a H.
  destruct (skip_comment_ret s) as (s1 & c & Hr & Hcode & Hc0 & Hc1).
  rewrite Hr in H. injection H as <- <-. split; [exact Hcode |].
  assert (Hle : index s <= index s1).
  { destruct c; [destruct (Hc1 eq_refl); lia | rewrite (Hc0 eq_refl); lia]. }
  split; [exact Hle |]. intros [Hlo Hhi]. split; [lia |].
  destruct (skip_comment_to_end_of_line_aux s Hlo) as [Hyes Hno].
  assert (Hdec : Decision (occurs_at (str "//") s))
    by (unfold occurs_at; apply _).
  destruct Hdec as [Ho | Ho].
  - destruct (Hyes Ho) as (body & rest & Hsplit & Hskip).
    rewrite Hskip in Hr. injection Hr as <- _.
    apply (f_equal length) in Hsplit.
    rewrite length_drop, !length_app in Hsplit.
    change (length (str "//")) with 2%nat in Hsplit.
    unfold advance, len in *. simpl.
    destruct (Z.le_gt_cases (Z.of_nat (length (code s))) (index s)); lia.
  - rewrite (Hno Ho) in Hr. injection Hr as <- _. exact Hhi.
Qed.

Lemma steady_bind {A B : Type} (p : Parser A) (f : A -> Parser B) :
  steady p -> (forall a, steady (f a)) -> steady (bind p f).
Proof.
  intros Hp Hf s s' b H. unfold bind in H.
  apply and_then_Ret in H as (s1 & a & H1 & H2).
  destruct (Hp _ _ _ H1) as (Hc1 & Hi1 & Hv1).
  destruct (Hf a _ _ _ H2) as (Hc2 & Hi2 & Hv2).
  split; [congruence |]. split; [lia | auto].
Qed.

Lemma steady_pure {A : Type} (a : A) : steady (pure a).
Proof. intros s s' x [= <- _]. split; [reflexivity |]. split; [lia | auto]. Qed.

Lemma steady_skip_rec fuel : steady (skip_rec fuel).
Proof.
  induction fuel as [| fuel IH]; intros s s' b H; [discriminate |].
  cbn [skip_rec] in H.
  apply and_then_Ret in H as (s1 & c & H1 & H).
  apply and_then_Ret in H as (s2 & sp & H2 & H).
  destruct (steady_skip_comment _ _ _ H1) as (Hc1 & Hi1 & Hv1).
  destruct (steady_skip_spaces _ _ _ H2) as (Hc2 & Hi2 & Hv2).
  destruct (c || sp).
  - apply and_then_Ret in H as (s3 & b3 & H3 & H). injection H as <- _.
    destruct (IH _ _ _ H3) as (Hc3 & Hi3 & Hv3).
    split; [congruence |]. split; [lia | auto].
  - injection H as <- _. split; [congruence |]. split; [lia | auto].
Qed.

Lemma steady_skip : steady skip.
Proof. intros s s' b H. exact (steady_skip_rec _ _ _ _ H). Qed.

Lemma steady_match_here l : steady (match_here l).
Proof.
  intros s s' b H. pose proof (len_nonneg l) as Hl.
  destruct (match_here_ret l s) as [Hm | Hm]; rewrite Hm in H;
    injection H as <- <-; (split; [reflexivity |]); (split; [simpl; lia |]);
    [| auto].
  intros [Hlo Hhi]. split; [simpl; lia |]. simpl.
  destruct (match_here_spec l s Hlo) as [_ Hno].
  assert (Hdec : Decision (occurs_at l s)) by (unfold occurs_at; apply _).
  destruct Hdec as [Ho | Ho]; [apply prefix_within; [split; assumption | exact Ho] |].
  rewrite (Hno Ho) in Hm. discriminate.
Qed.

Lemma steady_name_here : steady name_here.
Proof.
  intros s s' n H.
  destruct (name_here_ret s) as (s1 & n1 & Hr & Hcode & Hidx).
  rewrite Hr in H. injection H as <- <-.
  split; [exact Hcode |]. split; [exact Hidx |].
  intros [Hlo Hhi]. split; [lia |].
  rewrite name_here_spec in Hr by exact Hlo. injection Hr as <- _.
  unfold ident_at. rewrite ident_prefix_run.
  destruct (run_of_split is_ident (drop (Z.to_nat (index s)) (code s)))
    as (rest & Hsplit & _).
  apply (f_equal length) in Hsplit. rewrite length_drop, length_app in Hsplit.
  unfold advance, len in *. simpl. lia.
Qed.

Lemma steady_after_skip {A : Type} (k : Parser A) :
  steady k -> steady (fun state => var [state, _skipped] := skip state in k state).
Proof.
  intros Hk. exact (steady_bind skip (fun _ => k) steady_skip (fun _ => Hk)).
Qed.

Lemma steady_match_literal l : steady (match_ (Lit l)).
Proof. exact (steady_after_skip (match_here l) (steady_match_here l)). Qed.

Lemma steady_consume l : steady (consume l).
Proof.
  intros s s' u H. unfold consume in H.
  apply and_then_Ret in H as (s1 & b & H1 & H).
  destruct b; [| discriminate]. injection H as <- _.
  exact (steady_match_literal l _ _ _ H1).
Qed.

Lemma steady_name : steady name.
Proof. exact (steady_after_skip name_here steady_name_here). Qed.

Lemma steady_name1 : steady name1.
Proof.
  intros s s' n H. unfold name1 in H.
  apply and_then_Ret in H as (s1 & n1 & H1 & H).
  destruct (0 <? len n1); [| discriminate]. injection H as <- _.
  exact (steady_name _ _ _ H1).
Qed.

Lemma steady_get_char : steady get_char.
Proof.
  apply (steady_after_skip
           (fun state =>
              if index state <? len (code state)
              then Ret (mkState (code state) (index state + 1))
                       (Some (char_at (code state) (index state)))
              else Ret state None)).
  intros s s' c H. destruct (Z.ltb_spec (index s) (len (code s)));
    injection H as <- _; (split; [reflexivity |]); simpl;
    (split; [lia |]); unfold valid; simpl; lia.
Qed.

Lemma steady_done : steady done.
Proof.
  apply (steady_after_skip
           (fun state => Ret state (index state =? len (code state)))).
  intros s s' c [= <- _]. split; [reflexivity |]. split; [lia | auto].
Qed.

Lemma steady_caller open : steady (caller open).
Proof.
  intros s s' b H. unfold caller in H.
  apply and_then_Ret in H as (s1 & n & H1 & H).
  apply and_then_Ret in H as (s2 & g & H2 & H). injection H as <- _.
  destruct (steady_name_here _ _ _ H1) as (Hc1 & Hi1 & Hv1).
  destruct (steady_match_here open _ _ _ H2) as (Hc2 & Hi2 & Hv2).
  split; [congruence |]. split; [lia | auto].
Qed.

(** X5. Every primitive of the module, whenever it returns, leaves the
    text unchanged and the cursor at or after where it was, and keeps a
    cursor that lies within the text within the text. *)
Theorem primitives_are_steady :
  steady skip_comment /\ steady skip_spaces /\ steady skip
  /\ (forall l, steady (match_here l))
  /\ (forall l, steady (match_ (Lit l)))
  /\ (forall l, steady (consume l))
  /\ steady get_char /\ steady done
  /\ steady name_here /\ steady name /\ steady name1
  /\ (forall open, steady (caller open)).
Proof.
  split; [exact steady_skip_comment |]. split; [exact steady_skip_spaces |].
  split; [exact steady_skip |]. split; [exact steady_match_here |].
  split; [exact steady_match_literal |]. split; [exact steady_consume |].
  split; [exact steady_get_char |]. split; [exact steady_done |].
  split; [exact steady_name_here |]. split; [exact steady_name |].
  split; [exact steady_name1 | exact steady_caller].
Qed.

Lemma steady_dry {A : Type} (p : Parser A) : steady (dry p).
Proof.
  intros s s' a H. unfold dry in H.
  apply and_then_Ret in H as (s1 & a1 & _ & H). injection H as <- _.
  split; [reflexivity |]. split; [lia | auto].
Qed.

Lemma steady_guard {A : Type} (head : Parser bool) (body : Parser A) :
  steady body -> steady (guard head body).
Proof.
  intros Hb s s' r H. unfold guard in H.
  apply and_then_Ret in H as (s1 & sk & H1 & H).
  apply and_then_Ret in H as (s2 & m & H2 & H).
  destruct (steady_skip _ _ _ H1) as (Hc1 & Hi1 & Hv1).
  destruct (steady_dry head _ _ _ H2) as (Hc2 & Hi2 & Hv2).
  destruct m.
  - apply and_then_Ret in H as (s3 & a & H3 & H). injection H as <- _.
    destruct (Hb _ _ _ H3) as (Hc3 & Hi3 & Hv3).
    split; [congruence |]. split; [lia | auto].
  - injection H as <- _. split; [congruence |]. split; [lia | auto].
Qed.

Lemma steady_grammar {A : Type} `{Truthy A} (name : jsstring)
    (choices : list (Parser (option A))) :
  Forall steady choices -> steady (grammar name choices).
Proof.
  induction 1 as [| choice choices Hc Hcs IH]; intros s s' a Hg;
    cbn [grammar] in Hg; [discriminate |].
  apply and_then_Ret in Hg as (s1 & got & H1 & Hg).
  destruct (Hc _ _ _ H1) as (Hc1 & Hi1 & Hv1).
  assert (Hrest : grammar name choices s1 = Ret s' a ->
                  code s' = code s /\ index s <= index s' /\ (valid s -> valid s')).
  { intros Hr. destruct (IH _ _ _ Hr) as (Hc2 & Hi2 & Hv2).
    split; [congruence |]. split; [lia | auto]. }
  destruct got as [x |]; [| by apply Hrest].
  destruct (truthy x); [| by apply Hrest].
  injection Hg as <- _. split; [congruence |]. split; [lia | auto].
Qed.

Lemma steady_until {A : Type} (fuel : nat) (delim : Parser bool) (p : Parser A) :
  steady delim -> steady p -> steady (until fuel delim p).
Proof.
  intros Hd Hp. induction fuel as [| fuel IH]; intros s s' l H; [discriminate |].
  cbn [until] in H. apply and_then_Ret in H as (s1 & d & H1 & H).
  destruct (Hd _ _ _ H1) as (Hc1 & Hi1 & Hv1). destruct d.
  - injection H as <- _. split; [congruence |]. split; [lia | auto].
  - apply and_then_Ret in H as (s2 & a & H2 & H).
    apply and_then_Ret in H as (s3 & b & H3 & H). injection H as <- _.
    destruct (Hp _ _ _ H2) as (Hc2 & Hi2 & Hv2).
    destruct (IH _ _ _ H3) as (Hc3 & Hi3 & Hv3).
    split; [congruence |]. split; [lia | auto].
Qed.

Lemma steady_elem_then_sep {A : Type} (elem : Parser A) (sep : Parser bool) :
  steady elem -> steady sep -> steady (elem_then_sep elem sep).
Proof.
  intros He Hs s s' v H. unfold elem_then_sep in H.
  apply and_then_Ret in H as (s1 & v1 & H1 & H).
  apply and_then_Ret in H as (s2 & b & H2 & H). injection H as <- _.
  destruct (He _ _ _ H1) as (Hc1 & Hi1 & Hv1).
  destruct (Hs _ _ _ H2) as (Hc2 & Hi2 & Hv2).
  split; [congruence |]. split; [lia | auto].
Qed.

Lemma steady_list {A B : Type} (fuel : nat) (open sep close : Parser bool)
    (elem : Parser A) (make : list A -> B) :
  steady open -> steady sep -> steady close -> steady elem ->
  steady (list_ fuel open sep close elem make).
Proof.
  intros Ho Hs Hc He s s' r H. unfold list_ in H.
  apply and_then_Ret in H as (s1 & b & H1 & H).
  apply and_then_Ret in H as (s2 & arr & H2 & H). injection H as <- _.
  destruct (Ho _ _ _ H1) as (Hc1 & Hi1 & Hv1).
  destruct (steady_until fuel close (elem_then_sep elem sep) Hc
              (steady_elem_then_sep elem sep He Hs) _ _ _ H2) as (Hc2 & Hi2 & Hv2).
  split; [congruence |]. split; [lia | auto].
Qed.

Lemma steady_call {A B : Type} (fuel : nat) (open sep close : Parser bool)
    (elem : Parser A) (make : jsstring -> list A -> B) :
  steady open -> steady sep -> steady close -> steady elem ->
  steady (call fuel open sep close elem make).
Proof.
  intros Ho Hs Hc He s s' r H. unfold call in H.
  apply and_then_Ret in H as (s0 & nam & H0 & H).
  apply and_then_Ret in H as (s1 & b & H1 & H).
  apply and_then_Ret in H as (s2 & arr & H2 & H). injection H as <- _.
  destruct (steady_name1 _ _ _ H0) as (Hc0 & Hi0 & Hv0).
  destruct (Ho _ _ _ H1) as (Hc1 & Hi1 & Hv1).
  destruct (steady_until fuel close (elem_then_sep elem sep) Hc
              (steady_elem_then_sep elem sep He Hs) _ _ _ H2) as (Hc2 & Hi2 & Hv2).
  split; [congruence |]. split; [lia | auto].
Qed.

(** X6. The combinators hand the invariant on: built from parsers that
    leave the text unchanged, never move the cursor back and keep it
    within the text, [bind], [guard], [grammar], [until], [list] and
    [call] give such a parser again; [dry] and [pure] always do, and for
    [guard] only the body matters, the head being run under [dry]. *)
Theorem combinators_keep_steady :
  forall (A B : Type) `{Truthy A} (fuel : nat) (p : Parser A) (f : A -> Parser B)
         (head open sep close : Parser bool) (name : jsstring)
         (choices : list (Parser (option A)))
         (make : list A -> B) (make2 : jsstring -> list A -> B),
    steady (dry p)
    /\ (forall a : A, steady (pure a))
    /\ (steady p -> steady (guard head p))
    /\ (steady p -> (forall a, steady (f a)) -> steady (bind p f))
    /\ (Forall steady choices -> steady (grammar name choices))
    /\ (steady close -> steady p -> steady (until fuel close p))
    /\ (steady open -> steady sep -> steady close -> steady p ->
        steady (list_ fuel open sep close p make)
        /\ steady (call fuel open sep close p make2)).
Proof.
  intros A B HA fuel p f head open sep close name choices make make2.
  split; [apply steady_dry |]. split; [apply steady_pure |].
  split; [apply steady_guard |]. split; [apply steady_bind |].
  split; [apply steady_grammar |]. split; [apply steady_until |].
  intros Ho Hs Hc Hp. split; [by apply steady_list | by apply steady_call].
Qed.

Lemma combinators_keep_steady_witness :
  steady (list_ 3 (match_ (Lit (str "("))) (match_ (Lit (str ",")))
            (match_ (Lit (str ")"))) name (@length jsstring)).
Proof.
  apply (proj2 (proj2 (proj2 (proj2 (proj2 (proj2
           (combinators_keep_steady jsstring nat 3 name (fun _ => pure 0%nat)
              (pure true) (match_ (Lit (str "("))) (match_ (Lit (str ",")))
              (match_ (Lit (str ")"))) [] [] (@length jsstring)
              (fun _ => @length jsstring)))))))).
  - apply steady_match_literal.
  - apply steady_match_literal.
  - apply steady_match_literal.
  - apply steady_name.
Defined.

Lemma steady_sbt fuel : steady (sbt fuel).
Proof.
  induction fuel as [| fuel IH]; intros s s' t H; [discriminate |].
  cbn [sbt] in H. revert H. apply steady_grammar.
  constructor; [| constructor; [| constructor]].
  - apply steady_guard. apply steady_bind; [apply steady_consume |]. intros _.
    apply steady_bind; [exact IH |]. intros lft.
    apply steady_bind; [exact IH |]. intros rgt.
    apply steady_bind; [apply steady_consume |]. intros _. apply steady_pure.
  - apply steady_guard. apply steady_bind; [apply steady_name |]. intros x.
    apply steady_pure.
Qed.

(** X7. The demonstration grammar keeps the invariant: whenever [sbt]
    returns, from a cursor within the text, the text is unchanged and the
    cursor is at or after where it was and still within the text. *)
Theorem sbt_stays_in_text :
  forall (fuel : nat) (s s' : State) (t : StrBinTree),
    sbt fuel s = Ret s' t ->
    valid s ->
    code s' = code s /\ index s <= index s' <= len (code s).
Proof.
  intros fuel s s' t H Hv. destruct (steady_sbt fuel s s' t H) as (Hc & Hi & Hv').
  destruct (Hv' Hv) as [_ Hhi]. rewrite Hc in Hhi. split; [exact Hc | lia].
Qed.

Lemma sbt_stays_in_text_witness :
  code (mkState (str "(a b)") 5) = code (mkState (str "(a b)") 0)
  /\ index (mkState (str "(a b)") 0) <= index (mkState (str "(a b)") 5)
     <= len (code (mkState (str "(a b)") 0)).
Proof.
  apply (sbt_stays_in_text 2 (mkState (str "(a b)") 0) (mkState (str "(a b)") 5)
           (Node (Leaf (str "a")) (Leaf (str "b")))).
  - vm_compute. reflexivity.
  - unfold valid, len. simpl. lia.
Defined.

(** ** Literals, names and characters *)

(** X8. [consume(L)] skips trivia and then either returns with the cursor
    exactly [len(L)] characters further, or throws "Expected 'L':" with
    the span of the would-be match highlighted; it never returns without
    having consumed.  At a non-negative cursor it returns exactly when [L] occurs
    where the skipping stopped. *)
Theorem consume_or_expected :
  forall (l : jsstring) (s : State),
    exists s1 skipped,
      skip s = Ret s1 skipped
      /\ (consume l s = Ret (advance s1 (len l)) tt
          \/ consume l s
             = Throw (str "Expected '" ++ l ++ str "':" ++ [newline]
                        ++ highlight (index s1) (index s1 + len l) (code s1)))
      /\ (0 <= index s ->
          (occurs_at l s1 -> consume l s = Ret (advance s1 (len l)) tt)
          /\ (~ occurs_at l s1 ->
              consume l s
              = Throw (str "Expected '" ++ l ++ str "':" ++ [newline]
                         ++ highlight (index s1) (index s1 + len l) (code s1)))).
Proof.
  intros l s. destruct (skip_ret s) as (s1 & b & Hr & Hcode & Hidx & _).
  exists s1, b. split; [exact Hr |].
  assert (Hyes : match_here l s1 = Ret (advance s1 (len l)) true ->
                 consume l s = Ret (advance s1 (len l)) tt).
  { intros Hm. unfold consume, match_. rewrite Hr. cbn [and_then].
    rewrite Hm. reflexivity. }
  assert (Hno : match_here l s1 = Ret s1 false ->
                consume l s
                = Throw (str "Expected '" ++ l ++ str "':" ++ [newline]
                           ++ highlight (index s1) (index s1 + len l) (code s1))).
  { intros Hm. unfold consume, match_. rewrite Hr. cbn [and_then].
    rewrite Hm. reflexivity. }
  split.
  - destruct (match_here_ret l s1) as [Hm | Hm]; [left; auto | right; auto].
  - intros Hi. destruct (match_here_spec l s1 ltac:(lia)) as [Hy Hn].
    split; intros Ho; [apply Hyes; auto | apply Hno; auto].
Qed.

Lemma consume_or_expected_witness :
  exists s1 skipped,
    skip (mkState (str " )") 0) = Ret s1 skipped
    /\ (occurs_at (str ")") s1 ->
        consume (str ")") (mkState (str " )") 0)
        = Ret (advance s1 (len (str ")"))) tt)
    /\ (~ occurs_at (str ")") s1 ->
        consume (str ")") (mkState (str " )") 0)
        = Throw (str "Expected '" ++ str ")" ++ str "':" ++ [newline]
                   ++ highlight (index s1) (index s1 + len (str ")")) (code s1))).
Proof.
  destruct (consume_or_expected (str ")") (mkState (str " )") 0))
    as (s1 & b & Hr & _ & Hv).
  exists s1, b. split; [exact Hr |]. apply Hv. simpl. lia.
Defined.

(** X9. At a non-negative cursor [name_here] reads exactly the longest identifier
    there: the text from the cursor on is the returned name, made of
    identifier characters only, followed by a rest that does not start
    with one; the cursor ends after the name.  The name may be empty. *)
Theorem name_here_longest_identifier :
  forall s : State,
    0 <= index s ->
    exists n rest,
      drop (Z.to_nat (index s)) (code s) = n ++ rest
      /\ Forall (fun c => is_ident c = true) n
      /\ ends_name rest
      /\ name_here s = Ret (advance s (len n)) n.
Proof.
  intros s Hi.
  destruct (run_of_split is_ident (drop (Z.to_nat (index s)) (code s)))
    as (rest & Hsplit & Hall & Hrest).
  exists (run_of is_ident (drop (Z.to_nat (index s)) (code s))), rest.
  split; [exact Hsplit |]. split; [exact Hall |]. split; [exact Hrest |].
  rewrite name_here_spec by exact Hi. unfold ident_at.
  by rewrite ident_prefix_run.
Qed.

Lemma name_here_longest_identifier_witness :
  exists n rest,
    drop (Z.to_nat 1) (str "(ab c") = n ++ rest
    /\ Forall (fun c => is_ident c = true) n
    /\ ends_name rest
    /\ name_here (mkState (str "(ab c") 1)
       = Ret (advance (mkState (str "(ab c") 1) (len n)) n.
Proof.
  apply (name_here_longest_identifier (mkState (str "(ab c") 1)). simpl. lia.
Defined.

(** X10. [name1] never returns an empty name.  After the trivia, from a
    valid cursor, it returns the identifier at the cursor when there is
    one, with the cursor after it, and throws "Expected name:" with the
    character at the cursor highlighted when there is none. *)
Theorem name1_nonempty_or_expected :
  forall s : State,
    (forall s' n, name1 s = Ret s' n -> n <> [])
    /\ exists s1 skipped,
         skip s = Ret s1 skipped
         /\ (0 <= index s ->
             (ident_at s1 <> [] ->
              name1 s = Ret (advance s1 (len (ident_at s1))) (ident_at s1))
             /\ (ident_at s1 = [] ->
                 name1 s
                 = Throw (str "Expected name:" ++ [newline]
                            ++ highlight (index s1) (index s1 + 1) (code s1)))).
Proof.
  intros s. split.
  - intros s' n H. unfold name1 in H.
    apply and_then_Ret in H as (s1 & n1 & _ & H).
    destruct (Z.ltb_spec 0 (len n1)) as [Hlt | Hge]; [| discriminate].
    injection H as _ <-. intros ->. unfold len in Hlt. simpl in Hlt. lia.
  - destruct (skip_ret s) as (s1 & b & Hr & Hcode & Hidx & _).
    exists s1, b. split; [exact Hr |]. intros Hi.
    assert (Hn : name s = Ret (advance s1 (len (ident_at s1))) (ident_at s1)).
    { unfold name. rewrite Hr. cbn [and_then]. apply name_here_spec. lia. }
    unfold name1. rewrite Hn. cbn [and_then]. split.
    + intros Hne. destruct (ident_at s1) as [| c n]; [congruence |].
      reflexivity.
    + intros E. rewrite E. change (len (@nil char)) with 0.
      rewrite advance_0. reflexivity.
Qed.

Lemma name1_nonempty_or_expected_witness :
  name1 (mkState (str "   ") 0)
  = Throw (str "Expected name:" ++ [newline] ++ highlight 3 4 (str "   ")).
Proof.
  destruct (name1_nonempty_or_expected (mkState (str "   ") 0))
    as (_ & s1 & b & Hr & Hv).
  change (skip (mkState (str "   ") 0))
    with (Ret (mkState (str "   ") 3) true) in Hr.
  injection Hr as <- <-.
  apply (proj2 (Hv ltac:(simpl; lia))). reflexivity.
Defined.

(** X11. [get_char] never throws.  After the trivia it returns [null] with
    the state unchanged when the cursor is at or after the end of the
    text, and otherwise the character at the cursor with the cursor one
    further; a character it returns is never whitespace. *)
Theorem get_char_after_trivia :
  forall s : State,
    exists s1 skipped,
      skip s = Ret s1 skipped
      /\ (len (code s1) <= index s1 -> get_char s = Ret s1 None)
      /\ (index s1 < len (code s1) ->
          get_char s = Ret (advance s1 1) (Some (char_at (code s1) (index s1))))
      /\ (forall s' c, get_char s = Ret s' (Some (Some c)) -> is_space c = false).
Proof.
  intros s.
  destruct (skip_ret s) as (s1 & b & Hr & Hcode & Hidx & [_ Hss] & _).
  exists s1, b. split; [exact Hr |].
  unfold get_char. rewrite Hr. cbn [and_then].
  destruct (Z.ltb_spec (index s1) (len (code s1))) as [Hlt | Hge].
  - split; [lia |]. split; [reflexivity |].
    intros s' c [= _ Hc]. pose proof (skip_spaces_stops _ _ _ Hss) as E.
    unfold at_space in E. rewrite Hc in E. cbn [test to_text existsb] in E.
    by rewrite orb_false_r in E.
  - split; [reflexivity |]. split; [lia | discriminate].
Qed.

Lemma get_char_after_trivia_witness :
  exists s1 skipped,
    skip (mkState (str " x") 0) = Ret s1 skipped
    /\ (len (code s1) <= index s1 -> get_char (mkState (str " x") 0) = Ret s1 None)
    /\ (index s1 < len (code s1) ->
        get_char (mkState (str " x") 0)
        = Ret (advance s1 1) (Some (char_at (code s1) (index s1))))
    /\ (forall s' c, get_char (mkState (str " x") 0) = Ret s' (Some (Some c)) ->
                     is_space c = false).
Proof. exact (get_char_after_trivia (mkState (str " x") 0)). Defined.

(** X12. [done] consumes the trivia and nothing else, and from a cursor
    within the text it answers [true] exactly when [get_char] would return
    [null]: nothing but trivia is left. *)
Theorem done_iff_no_char_left :
  forall s : State,
    valid s ->
    exists s1 skipped b s2 v,
      skip s = Ret s1 skipped
      /\ done s = Ret s1 b
      /\ get_char s = Ret s2 v
      /\ (b = true <-> v = None)
      /\ (b = true <-> index s1 = len (code s)).
Proof.
  intros s Hv.
  destruct (skip_ret s) as (s1 & sk & Hr & Hcode & Hidx & _).
  destruct (steady_skip _ _ _ Hr) as (_ & _ & Hv1). destruct (Hv1 Hv) as [Hlo Hhi].
  exists s1, sk. unfold done, get_char. rewrite Hr. cbn [and_then].
  destruct (Z.ltb_spec (index s1) (len (code s1))) as [Hlt | Hge];
    eexists _, _, _; (split; [reflexivity |]); (split; [reflexivity |]);
    (split; [reflexivity |]); rewrite Z.eqb_eq, <- Hcode.
  - split; (split; [lia | discriminate || lia]).
  - split; (split; [reflexivity || lia | lia]).
Qed.

Lemma done_iff_no_char_left_witness :
  exists s1 skipped b s2 v,
    skip (mkState (str "a ") 1) = Ret s1 skipped
    /\ done (mkState (str "a ") 1) = Ret s1 b
    /\ get_char (mkState (str "a ") 1) = Ret s2 v
    /\ (b = true <-> v = None)
    /\ (b = true <-> index s1 = len (str "a ")).
Proof.
  apply (done_iff_no_char_left (mkState (str "a ") 1)).
  unfold valid, len. simpl. lia.
Defined.

(** ** Dispatch *)

(** X13. With a literal as its head, [guard] decides by lookahead and
    consumes nothing of the literal: from a non-negative cursor, when [L] occurs
    where the trivia ends, the body runs from exactly there (before [L]),
    and otherwise [guard] returns "absent" with the trivia-skipped state
    without running the body. *)
Theorem guard_on_literal :
  forall (A : Type) (l : jsstring) (body : Parser A) (s : State),
    0 <= index s ->
    exists s1 skipped,
      skip s = Ret s1 skipped
      /\ (occurs_at l s1 ->
          guard (match_ (Lit l)) body s
          = var [state, a] := body s1 in Ret state (Some a))
      /\ (~ occurs_at l s1 -> guard (match_ (Lit l)) body s = Ret s1 None).
Proof.
  intros A l body s Hi.
  destruct (skip_ret s) as (s1 & b & Hr & Hcode & Hidx & Hset & _).
  exists s1, b. split; [exact Hr |].
  destruct (match_here_spec l s1 ltac:(lia)) as [Hyes Hno].
  unfold guard, dry, match_. rewrite Hr. cbn [and_then].
  unfold skip. rewrite (skip_rec_settled _ _ Hset). cbn [and_then].
  split; intros Ho.
  - rewrite (Hyes Ho). reflexivity.
  - rewrite (Hno Ho). reflexivity.
Qed.

Lemma guard_on_literal_witness :
  guard (match_ (Lit (str "("))) (consume (str "(")) (mkState (str " (a") 0)
  = var [state, a] := consume (str "(") (mkState (str " (a") 1) in
    Ret state (Some a).
Proof.
  destruct (guard_on_literal unit (str "(") (consume (str "("))
              (mkState (str " (a") 0) ltac:(simpl; lia))
    as (s1 & b & Hr & Hyes & _).
  change (skip (mkState (str " (a") 0))
    with (Ret (mkState (str " (a") 1) true) in Hr.
  injection Hr as <- <-. apply Hyes. exists (str "a"). reflexivity.
Defined.

(** X14. [grammar] runs its choices in order, each from the state the one
    before left.  Choices whose result [if (got)] rejects ([null], or a
    falsy value such as the empty string) are passed over; the first
    choice with a truthy result decides, and its pair is returned.  When
    all are passed over, [grammar] throws "Expected <name>:" with the
    character at the cursor then reached highlighted. *)
Theorem grammar_first_truthy_choice :
  forall (A : Type) `{Truthy A} (name : jsstring)
         (before after : list (Parser (option A))) (choice : Parser (option A))
         (s s1 s2 : State) (a : A),
    passes before s s1 ->
    (choice s1 = Ret s2 (Some a) -> truthy a = true ->
     grammar name (before ++ choice :: after) s = Ret s2 a)
    /\ grammar name before s
       = Throw (str "Expected " ++ name ++ str ":" ++ [newline]
                  ++ highlight (index s1) (index s1 + 1) (code s1)).
Proof.
  intros A HA name before after choice s s1 s2 a Hp. split.
  - intros Hc Ht. by eapply grammar_selects.
  - by apply grammar_exhausted.
Qed.

Lemma grammar_first_truthy_choice_witness :
  grammar (str "T")
    ([guard (match_here (str "x")) (pure 1)]
       ++ guard (match_here (str "y")) (pure 2) :: [])
    (mkState (str "y") 0)
  = Ret (mkState (str "y") 0) 2.
Proof.
  assert (Hp : passes [guard (match_here (str "x")) (pure 1)]
                 (mkState (str "y") 0) (mkState (str "y") 0)).
  { eapply (passes_cons _ [] _ _ None); [reflexivity | reflexivity |].
    apply passes_nil. }
  apply (proj1 (grammar_first_truthy_choice Z (str "T") _ []
                  (guard (match_here (str "y")) (pure 2))
                  _ _ (mkState (str "y") 0) 2 Hp)); reflexivity.
Defined.

(** ** Reading back what was written *)

Lemma sees_start pre x : sees (pre ++ x) (len pre) x.
Proof.
  split; [apply len_nonneg |]. unfold len. rewrite Nat2Z.id.
  apply drop_app_length.
Qed.

Lemma sees_advance code i a x :
  sees code i (a ++ x) -> sees code (i + len a) x.
Proof.
  intros [Hi Hd]. split; [pose proof (len_nonneg a); lia |].
  unfold len. replace (Z.to_nat (i + Z.of_nat (length a)))
    with (Z.to_nat i + length a)%nat by lia.
  rewrite <- drop_drop, Hd. apply drop_app_length.
Qed.

Lemma sees_occurs code i l x : sees code i (l ++ x) -> occurs_at l (mkState code i).
Proof. intros [Hi Hd]. unfold occurs_at. simpl. rewrite Hd. by exists x. Qed.

Lemma sees_char_at code i c x : sees code i (c :: x) -> char_at code i = Some c.
Proof.
  intros [Hi Hd]. unfold char_at. destruct (Z.ltb_spec i 0); [lia |].
  pose proof (lookup_drop code (Z.to_nat i) 0) as Hl.
  rewrite Hd, Nat.add_0_r in Hl. symmetry. exact Hl.
Qed.

Lemma sees_end code i : sees code i [] -> len code <= i.
Proof.
  intros [Hi Hd]. apply (f_equal length) in Hd. rewrite length_drop in Hd.
  unfold len. simpl in Hd. lia.
Qed.

Lemma ident_char c :
  is_ident c = true ->
  is_space c = false /\ c <> 47%N /\ c <> 40%N /\ c <> 41%N /\ c <> 44%N.
Proof.
  unfold is_ident. rewrite !orb_true_iff, !andb_true_iff, !N.leb_le, !N.eqb_eq.
  intros H. split; [| lia].
  apply not_true_iff_false. unfold is_space.
  rewrite !orb_true_iff, !andb_true_iff, !N.leb_le, !N.eqb_eq. lia.
Qed.

Lemma space_char c : is_space c = true -> c <> 47%N /\ is_ident c = false.
Proof.
  unfold is_space. rewrite !orb_true_iff, !andb_true_iff, !N.leb_le, !N.eqb_eq.
  intros H. split; [lia |].
  apply not_true_iff_false. unfold is_ident.
  rewrite !orb_true_iff, !andb_true_iff, !N.leb_le, !N.eqb_eq. lia.
Qed.

(** Where the text does not go on with a slash there is no comment. *)
Lemma skip_comment_sees code i x :
  sees code i x ->
  match x with [] => True | c :: _ => c <> 47%N end ->
  skip_comment (mkState code i) = Ret (mkState code i) false.
Proof.
  intros [Hi Hd] Hx.
  apply (proj2 (skip_comment_spec (mkState code i) Hi)).
  unfold occurs_at. simpl. rewrite Hd. intros [k Hk].
  change (str "//" ++ k) with (47%N :: 47%N :: k) in Hk.
  destruct x as [| c x]; [discriminate |]. injection Hk as Hc _. congruence.
Qed.

Lemma skip_spaces_sees code i ws x :
  sees code i (ws ++ x) ->
  Forall (fun c => is_space c = true) ws ->
  match x with [] => True | c :: _ => is_space c = false end ->
  exists b, skip_spaces (mkState code i) = Ret (mkState code (i + len ws)) b
            /\ (ws = [] -> b = false).
Proof.
  intros [Hi Hd] Hws Hx. eexists. rewrite skip_spaces_spec by exact Hi.
  simpl. rewrite Hd, (run_of_app is_space ws x Hws Hx).
  split; [reflexivity |]. intros ->. simpl in Hd.
  unfold at_space. destruct x as [| c x].
  - rewrite char_at_outside; [reflexivity |].
    right. exact (sees_end code i (conj Hi Hd)).
  - rewrite (sees_char_at code i c x (conj Hi Hd)).
    cbn [test to_text existsb]. by rewrite Hx.
Qed.

Lemma firm_no_space x :
  firm x -> match x with [] => True | c :: _ => is_space c = false end.
Proof. destruct x; [auto | by intros [? ?]]. Qed.

Lemma firm_no_slash x :
  firm x -> match x with [] => True | c :: _ => c <> 47%N end.
Proof. destruct x; [auto | by intros [? ?]]. Qed.

(** At a firm position [skip] finds nothing. *)
Lemma skip_firm code i x :
  sees code i x -> firm x -> skip (mkState code i) = Ret (mkState code i) false.
Proof.
  intros Hs Hf. unfold skip. apply skip_rec_settled. split.
  - exact (skip_comment_sees code i x Hs (firm_no_slash x Hf)).
  - destruct (skip_spaces_sees code i [] x Hs ltac:(constructor)
                (firm_no_space x Hf)) as (b & Hb & Hnil).
    rewrite Hb, (Hnil eq_refl). do 2 f_equal. unfold len. simpl. lia.
Qed.

(** Whitespace before a firm position is what [skip] consumes. *)
Lemma skip_sees code i ws x :
  sees code i (ws ++ x) ->
  Forall (fun c => is_space c = true) ws ->
  firm x ->
  exists b, skip (mkState code i) = Ret (mkState code (i + len ws)) b.
Proof.
  intros Hs Hws Hf. rewrite skip_unfold.
  rewrite (skip_comment_sees code i (ws ++ x) Hs).
  - cbn [and_then orb].
    destruct (skip_spaces_sees code i ws x Hs Hws (firm_no_space x Hf))
      as (b & Hb & _).
    rewrite Hb. cbn [and_then].
    rewrite (skip_firm code (i + len ws) x (sees_advance _ _ _ _ Hs) Hf).
    destruct b; eexists; reflexivity.
  - destruct Hws as [| c ws Hc _]; simpl.
    + by apply firm_no_slash.
    + by apply space_char.
Qed.

Lemma match_here_sees code i l x :
  sees code i (l ++ x) ->
  match_here l (mkState code i) = Ret (mkState code (i + len l)) true.
Proof.
  intros Hs. destruct Hs as [Hi Hd].
  apply (proj1 (match_here_spec l (mkState code i) Hi)).
  exact (sees_occurs code i l x (conj Hi Hd)).
Qed.

Lemma match_here_sees_not code i l x :
  sees code i x -> ~ l `prefix_of` x ->
  match_here l (mkState code i) = Ret (mkState code i) false.
Proof.
  intros [Hi Hd] Hn. apply (proj2 (match_here_spec l (mkState code i) Hi)).
  unfold occurs_at. simpl. by rewrite Hd.
Qed.

Lemma name_here_sees code i n x :
  sees code i (n ++ x) ->
  Forall (fun c => is_ident c = true) n ->
  ends_name x ->
  name_here (mkState code i) = Ret (mkState code (i + len n)) n.
Proof.
  intros [Hi Hd] Hn Hx. rewrite name_here_spec by exact Hi.
  unfold ident_at, advance. simpl.
  by rewrite Hd, ident_prefix_run, (run_of_app is_ident n x Hn Hx).
Qed.

(** [consume] and [name] behind whitespace. *)
Lemma consume_sees code i ws l x :
  sees code i (ws ++ l ++ x) ->
  Forall (fun c => is_space c = true) ws ->
  firm (l ++ x) ->
  consume l (mkState code i) = Ret (mkState code (i + len ws + len l)) tt.
Proof.
  intros Hs Hws Hf. unfold consume, match_.
  destruct (skip_sees code i ws (l ++ x) Hs Hws Hf) as (b & Hb).
  rewrite Hb. cbn [and_then].
  rewrite (match_here_sees code (i + len ws) l x (sees_advance _ _ _ _ Hs)).
  reflexivity.
Qed.

Lemma is_name_firm n x : is_name n -> firm (n ++ x).
Proof.
  intros [Hne Hall]. destruct Hall as [| c n Hc _]; [congruence |].
  simpl. destruct (ident_char c Hc) as (? & ? & _). by split.
Qed.

Lemma name_sees code i ws n x :
  sees code i (ws ++ n ++ x) ->
  Forall (fun c => is_space c = true) ws ->
  is_name n -> ends_name x ->
  name (mkState code i) = Ret (mkState code (i + len ws + len n)) n.
Proof.
  intros Hs Hws Hn Hx. unfold name.
  destruct (skip_sees code i ws (n ++ x) Hs Hws (is_name_firm n x Hn)) as (b & Hb).
  rewrite Hb. cbn [and_then].
  exact (name_here_sees code (i + len ws) n x (sees_advance _ _ _ _ Hs)
           (proj2 Hn) Hx).
Qed.

Lemma guard_literal_sees {A : Type} code i ws l x (body : Parser A) :
  sees code i (ws ++ l ++ x) ->
  Forall (fun c => is_space c = true) ws ->
  firm (l ++ x) ->
  guard (match_ (Lit l)) body (mkState code i)
  = var [state, a] := body (mkState code (i + len ws)) in Ret state (Some a).
Proof.
  intros Hs Hws Hf. unfold guard, dry, match_.
  destruct (skip_sees code i ws (l ++ x) Hs Hws Hf) as (b & Hb).
  rewrite Hb. cbn [and_then].
  pose proof (sees_advance _ _ _ _ Hs) as Hs1.
  rewrite (skip_firm code (i + len ws) (l ++ x) Hs1 Hf). cbn [and_then].
  rewrite (match_here_sees code (i + len ws) l x Hs1). reflexivity.
Qed.

Lemma guard_literal_sees_not {A : Type} code i ws l x (body : Parser A) :
  sees code i (ws ++ x) ->
  Forall (fun c => is_space c = true) ws ->
  firm x -> ~ l `prefix_of` x ->
  guard (match_ (Lit l)) body (mkState code i)
  = Ret (mkState code (i + len ws)) None.
Proof.
  intros Hs Hws Hf Hn. unfold guard, dry, match_.
  destruct (skip_sees code i ws x Hs Hws Hf) as (b & Hb).
  rewrite Hb. cbn [and_then].
  pose proof (sees_advance _ _ _ _ Hs) as Hs1.
  rewrite (skip_firm code (i + len ws) x Hs1 Hf). cbn [and_then].
  rewrite (match_here_sees_not code (i + len ws) l x Hs1 Hn). reflexivity.
Qed.

Lemma print_firm t x : named t -> firm (print t ++ x).
Proof.
  destruct t as [lft rgt | n]; simpl.
  - intros _. split; [reflexivity | discriminate].
  - intros Hn. by apply is_name_firm.
Qed.

Lemma name_not_open n x : is_name n -> ~ str "(" `prefix_of` (n ++ x).
Proof.
  intros [Hne Hall] [k Hk]. destruct Hall as [| c n Hc _]; [congruence |].
  change (str "(" ++ k) with (40%N :: k) in Hk. injection Hk as -> _.
  destruct (ident_char _ Hc) as (_ & _ & H40 & _). congruence.
Qed.

Lemma sees_nil code i x : sees code i x -> sees code i ([] ++ x).
Proof. exact id. Qed.

(** The general statement behind the round trip: [sbt] reads the text of
    a tree behind whitespace, in any context that does not prolong its
    last name. *)
Lemma sbt_reads_print t :
  named t ->
  forall fuel code i ws rest,
    (depth t < fuel)%nat ->
    sees code i (ws ++ print t ++ rest) ->
    Forall (fun c => is_space c = true) ws ->
    ends_name rest ->
    sbt fuel (mkState code i) = Ret (mkState code (i + len ws + len (print t))) t.
Proof.
  induction t as [lft IHl rgt IHr | n]; intros Hn fuel code i ws rest Hf Hs Hws Hr;
    (destruct fuel as [| fuel]; [lia |]); cbn [sbt grammar].
  - destruct Hn as [Hnl Hnr]. cbn [depth] in Hf. cbn [print] in Hs |- *.
    set (x := print lft ++ str " " ++ print rgt ++ str ")" ++ rest).
    assert (Hs' : sees code i (ws ++ str "(" ++ x)).
    { unfold x. by rewrite <- !app_assoc in Hs. }
    rewrite (guard_literal_sees code i ws (str "(") x); [| exact Hs' | exact Hws |].
    2:{ split; [reflexivity | discriminate]. }
    pose proof (sees_advance _ _ _ _ Hs') as Hs1.
    set (j := i + len ws) in *.
    unfold bind.
    rewrite (consume_sees code j [] (str "(") x (sees_nil _ _ _ Hs1)
               ltac:(constructor)); [| split; [reflexivity | discriminate]].
    cbn [and_then].
    pose proof (sees_advance _ _ _ _ Hs1) as Hs2.
    replace (j + len [] + len (str "(")) with (j + len (str "("))
      by (unfold len; simpl; lia).
    set (k := j + len (str "(")) in *.
    rewrite (IHl Hnl fuel code k [] (str " " ++ print rgt ++ str ")" ++ rest));
      [| lia | exact (sees_nil _ _ _ Hs2) | constructor | reflexivity].
    cbn [and_then].
    replace (k + len [] + len (print lft)) with (k + len (print lft))
      by (unfold len; simpl; lia).
    pose proof (sees_advance _ _ _ _ Hs2) as Hs3.
    set (m := k + len (print lft)) in *.
    assert (Hs3' : sees code m (str " " ++ print rgt ++ str ")" ++ rest))
      by exact Hs3.
    rewrite (IHr Hnr fuel code m (str " ") (str ")" ++ rest));
      [| lia | exact Hs3' | by repeat constructor | reflexivity].
    cbn [and_then].
    pose proof (sees_advance _ _ _ _ (sees_advance _ _ _ _ Hs3')) as Hs4.
    set (q := m + len (str " ") + len (print rgt)) in *.
    rewrite (consume_sees code q [] (str ")") rest (sees_nil _ _ _ Hs4)
               ltac:(constructor)); [| split; [reflexivity | discriminate]].
    cbn [and_then pure truthy truthy_StrBinTree].
    do 2 f_equal. unfold q, m, k, j. rewrite !len_app. unfold len. simpl. lia.
  - cbn [named] in Hn. cbn [print] in Hs |- *.
    rewrite (guard_literal_sees_not code i ws (str "(") (n ++ rest)); 
      [| exact Hs | exact Hws | by apply is_name_firm | by apply name_not_open].
    cbn [and_then].
    pose proof (sees_advance _ _ _ _ Hs) as Hs1.
    set (j := i + len ws) in *.
    rewrite (guard_literal_sees code j [] (str "") (n ++ rest));
      [| exact Hs1 | constructor | exact (is_name_firm n rest Hn)].
    replace (j + len []) with j by (unfold len; simpl; lia).
    unfold bind.
    rewrite (name_sees code j [] n rest Hs1 ltac:(constructor) Hn Hr).
    cbn [and_then pure].
    assert (Ht : truthy (Leaf n) = true).
    { destruct Hn as [Hne _]. destruct n; [congruence | reflexivity]. }
    rewrite Ht. do 2 f_equal. unfold len. simpl. lia.
Qed.

(** X15. Reading back what was written: for every tree whose leaves are
    non-empty identifiers, [sbt] applied to the text of the tree, with
    enough budget for its depth, returns that tree and consumes the whole
    text.  The text may stand behind whitespace and before any context
    that does not begin with an identifier character. *)
Theorem sbt_parses_printed_tree :
  forall (t : StrBinTree) (fuel : nat) (before ws rest : jsstring),
    named t ->
    (depth t < fuel)%nat ->
    Forall (fun c => is_space c = true) ws ->
    ends_name rest ->
    sbt fuel (mkState (before ++ ws ++ print t ++ rest) (len before))
    = Ret (mkState (before ++ ws ++ print t ++ rest)
             (len before + len ws + len (print t))) t.
Proof.
  intros t fuel before ws rest Hn Hf Hws Hr.
  apply (sbt_reads_print t Hn fuel _ _ ws rest Hf); [| exact Hws | exact Hr].
  apply sees_start.
Qed.

Lemma sbt_parses_printed_tree_witness :
  sbt 2 (mkState (str "x" ++ str " " ++ print (Node (Leaf (str "a")) (Leaf (str "b")))
                    ++ str ")") (len (str "x")))
  = Ret (mkState (str "x" ++ str " " ++ print (Node (Leaf (str "a")) (Leaf (str "b")))
                    ++ str ")")
           (len (str "x") + len (str " ")
            + len (print (Node (Leaf (str "a")) (Leaf (str "b"))))))
        (Node (Leaf (str "a")) (Leaf (str "b"))).
Proof.
  apply (sbt_parses_printed_tree (Node (Leaf (str "a")) (Leaf (str "b"))) 2
           (str "x") (str " ") (str ")")).
  - split; split; (discriminate || by repeat constructor).
  - simpl. lia.
  - by repeat constructor.
  - reflexivity.
Defined.

Lemma match_literal_sees code i l x :
  sees code i (l ++ x) -> firm (l ++ x) ->
  match_ (Lit l) (mkState code i) = Ret (mkState code (i + len l)) true.
Proof.
  intros Hs Hf. unfold match_. rewrite (skip_firm code i (l ++ x) Hs Hf).
  cbn [and_then]. exact (match_here_sees code i l x Hs).
Qed.

Lemma match_literal_sees_not code i l x :
  sees code i x -> firm x -> ~ l `prefix_of` x ->
  match_ (Lit l) (mkState code i) = Ret (mkState code i) false.
Proof.
  intros Hs Hf Hn. unfold match_. rewrite (skip_firm code i x Hs Hf).
  cbn [and_then]. exact (match_here_sees_not code i l x Hs Hn).
Qed.

Lemma name_not_close n x : is_name n -> ~ str ")" `prefix_of` (n ++ x).
Proof.
  intros [Hne Hall] [k Hk]. destruct Hall as [| c n Hc _]; [congruence |].
  change (str ")" ++ k) with (41%N :: k) in Hk. injection Hk as -> _.
  destruct (ident_char _ Hc) as (_ & _ & _ & H41 & _). congruence.
Qed.

(** [until] with [")"] as delimiter reads names written with commas. *)
Lemma until_reads_commas names :
  Forall is_name names ->
  forall fuel code i rest,
    (length names < fuel)%nat ->
    sees code i (commas names ++ str ")" ++ rest) ->
    until fuel (match_ (Lit (str ")")))
      (elem_then_sep name (match_ (Lit (str ",")))) (mkState code i)
    = Ret (mkState code (i + len (commas names) + 1)) names.
Proof.
  induction 1 as [| n names Hn Hnames IH]; intros fuel code i rest Hf Hs;
    (destruct fuel as [| fuel]; [simpl in Hf; lia |]); cbn [until].
  - cbn [commas app] in Hs |- *.
    rewrite (match_literal_sees code i (str ")") rest Hs);
      [| split; [reflexivity | discriminate]].
    cbn [and_then]. do 2 f_equal. unfold len. simpl. lia.
  - cbn [length] in Hf.
    assert (Hsplit : exists tail,
               commas (n :: names) = n ++ tail
               /\ ends_name (tail ++ str ")" ++ rest)
               /\ firm (tail ++ str ")" ++ rest)
               /\ exists b,
                    match_ (Lit (str ",")) (mkState code (i + len n))
                    = Ret (mkState code (i + len n + (len tail - len (commas names)))) b
               /\ sees code (i + len n + (len tail - len (commas names)))
                    (commas names ++ str ")" ++ rest)).
    { destruct names as [| n' names].
      - exists []. cbn [commas]. rewrite app_nil_r. cbn [app].
        split; [reflexivity |]. split; [reflexivity |].
        split; [split; [reflexivity | discriminate] |].
        cbn [commas] in Hs.
        pose proof (sees_advance _ _ _ _ Hs) as Hs1.
        exists false. replace (i + len n + (len [] - len [])) with (i + len n)
          by (unfold len; simpl; lia).
        split; [| exact Hs1].
        apply (match_literal_sees_not code (i + len n) (str ",") _ Hs1).
        + split; [reflexivity | discriminate].
        + intros [k Hk]. discriminate.
      - exists (str "," ++ commas (n' :: names)).
        split; [reflexivity |]. split; [reflexivity |].
        split; [split; [reflexivity | discriminate] |].
        change (commas (n :: n' :: names))
          with (n ++ str "," ++ commas (n' :: names)) in Hs.
        rewrite <- !app_assoc in Hs.
        pose proof (sees_advance _ _ _ _ Hs) as Hs1.
        exists true.
        replace (i + len n + (len (str "," ++ commas (n' :: names))
                              - len (commas (n' :: names))))
          with (i + len n + len (str ","))
          by (rewrite len_app; lia).
        split; [| exact (sees_advance _ _ _ _ Hs1)].
        apply (match_literal_sees code (i + len n) (str ",") _ Hs1).
        split; [reflexivity | discriminate]. }
    destruct Hsplit as (tail & Hc & Hend & Hfirm & b & Hsep & Hs2).
    rewrite Hc in Hs |- *. rewrite <- app_assoc in Hs.
    rewrite (match_literal_sees_not code i (str ")") _ Hs);
      [| by apply is_name_firm | by apply name_not_close].
    cbn [and_then]. unfold elem_then_sep at 1.
    rewrite (name_sees code i [] n _ Hs ltac:(constructor) Hn Hend).
    cbn [and_then].
    replace (i + len [] + len n) with (i + len n) by (unfold len; simpl; lia).
    rewrite Hsep. cbn [and_then].
    rewrite (IH fuel code _ rest ltac:(lia) Hs2). cbn [and_then app].
    do 2 f_equal. rewrite len_app. lia.
Qed.

(** X16. Reading back a written list: for non-empty identifiers [names],
    [list] with the literal matchers ["("], [","], [")"] and [name] as
    element parser, applied where the text goes on with ["("], the names
    with commas between them, and [")"], returns [make names] and leaves
    the cursor just after the [")"]. *)
Theorem list_parses_written_list :
  forall (B : Type) (make : list jsstring -> B) (names : list jsstring)
         (fuel : nat) (before rest : jsstring),
    Forall is_name names ->
    (length names < fuel)%nat ->
    list_ fuel (match_ (Lit (str "("))) (match_ (Lit (str ",")))
      (match_ (Lit (str ")"))) name make
      (mkState (before ++ str "(" ++ commas names ++ str ")" ++ rest) (len before))
    = Ret (mkState (before ++ str "(" ++ commas names ++ str ")" ++ rest)
             (len before + 1 + len (commas names) + 1))
          (make names).
Proof.
  intros B make names fuel before rest Hn Hf. unfold list_.
  pose proof (sees_start before (str "(" ++ commas names ++ str ")" ++ rest)) as Hs.
  rewrite (match_literal_sees _ _ (str "(") _ Hs);
    [| split; [reflexivity | discriminate]].
  cbn [and_then].
  change (fun state : State =>
            var [state0, val] := name state in
            var [state1, skp] := match_ (Lit (str ",")) state0 in Ret state1 val)
    with (elem_then_sep name (match_ (Lit (str ",")))).
  rewrite (until_reads_commas names Hn fuel _ _ rest Hf (sees_advance _ _ _ _ Hs)).
  reflexivity.
Qed.

Lemma list_parses_written_list_witness :
  list_ 3 (match_ (Lit (str "("))) (match_ (Lit (str ",")))
    (match_ (Lit (str ")"))) name (@length jsstring)
    (mkState (str "f" ++ str "(" ++ commas [str "a"; str "b"] ++ str ")" ++ str ";")
       (len (str "f")))
  = Ret (mkState (str "f" ++ str "(" ++ commas [str "a"; str "b"] ++ str ")" ++ str ";")
           (len (str "f") + 1 + len (commas [str "a"; str "b"]) + 1))
        (length [str "a"; str "b"]).
Proof.
  apply (list_parses_written_list nat (@length jsstring) [str "a"; str "b"] 3
           (str "f") (str ";")).
  - repeat constructor; discriminate.
  - simpl. lia.
Defined.

(** X17. Reading back a written call: for a non-empty identifier [f] and
    non-empty identifiers [names], [call] with the literal matchers
    ["("], [","], [")"] and [name] as element parser, applied to
    [f(names with commas)], returns [make f names] and leaves the cursor
    just after the [")"]. *)
Theorem call_parses_written_call :
  forall (B : Type) (make : jsstring -> list jsstring -> B)
         (f : jsstring) (names : list jsstring)
         (fuel : nat) (before rest : jsstring),
    is_name f ->
    Forall is_name names ->
    (length names < fuel)%nat ->
    call fuel (match_ (Lit (str "("))) (match_ (Lit (str ",")))
      (match_ (Lit (str ")"))) name make
      (mkState (before ++ f ++ str "(" ++ commas names ++ str ")" ++ rest)
         (len before))
    = Ret (mkState (before ++ f ++ str "(" ++ commas names ++ str ")" ++ rest)
             (len before + len f + 1 + len (commas names) + 1))
          (make f names).
Proof.
  intros B make f names fuel before rest Hfn Hn Hf. unfold call, name1.
  pose proof (sees_start before
                (f ++ str "(" ++ commas names ++ str ")" ++ rest)) as Hs.
  rewrite (name_sees _ _ [] f _ Hs ltac:(constructor) Hfn eq_refl).
  cbn [and_then].
  replace (len before + len [] + len f) with (len before + len f)
    by (unfold len; simpl; lia).
  assert (Hpos : (0 <? len f) = true).
  { destruct Hfn as [Hne _]. destruct f; [congruence |].
    unfold len. simpl. apply Z.ltb_lt. lia. }
  rewrite Hpos. cbn [and_then].
  pose proof (sees_advance _ _ _ _ Hs) as Hs1.
  rewrite (match_literal_sees _ _ (str "(") _ Hs1);
    [| split; [reflexivity | discriminate]].
  cbn [and_then].
  change (fun state : State =>
            var [state0, val] := name state in
            var [state1, skp] := match_ (Lit (str ",")) state0 in Ret state1 val)
    with (elem_then_sep name (match_ (Lit (str ",")))).
  rewrite (until_reads_commas names Hn fuel _ _ rest Hf (sees_advance _ _ _ _ Hs1)).
  reflexivity.
Qed.

Lemma call_parses_written_call_witness :
  call 3 (match_ (Lit (str "("))) (match_ (Lit (str ",")))
    (match_ (Lit (str ")"))) name (fun f args => (f, length args))
    (mkState ([] ++ str "f" ++ str "(" ++ commas [str "a"; str "b"] ++ str ")" ++ [])
       (len []))
  = Ret (mkState ([] ++ str "f" ++ str "(" ++ commas [str "a"; str "b"] ++ str ")" ++ [])
           (len [] + len (str "f") + 1 + len (commas [str "a"; str "b"]) + 1))
        (str "f", length [str "a"; str "b"]).
Proof.
  apply (call_parses_written_call _ (fun f args => (f, length args)) (str "f")
           [str "a"; str "b"] 3 [] []).
  - split; [discriminate | by repeat constructor].
  - repeat constructor; discriminate.
  - simpl. lia.
Defined.

(** ** The diagnostic of a one-line text *)

Lemma count_newlines_none s :
  Forall (fun c => c <> newline) s -> count_newlines s = 0.
Proof.
  induction 1 as [| c s Hc _ IH]; simpl; [reflexivity |].
  unfold is_newline. destruct (N.eqb_spec c newline); [congruence | lia].
Qed.

Lemma split_on_none s :
  Forall (fun c => c <> newline) s -> split_on newline s = [s].
Proof.
  induction 1 as [| c s Hc _ IH]; simpl; [reflexivity |].
  destruct (N.eqb_spec c newline); [congruence |]. by rewrite IH.
Qed.

Lemma indexOf_from_first c a b i :
  Forall (fun x => x <> c) a ->
  indexOf_from [c] (a ++ c :: b) i = i + len a.
Proof.
  intros Ha. revert i. induction Ha as [| x a Hx _ IH]; intros i.
  - cbn [app indexOf_from]. change (take (length [c]) (c :: b)) with [c].
    rewrite (proj2 (eqb_true [c] [c]) eq_refl).
    unfold len. simpl. lia.
  - cbn [app indexOf_from].
    change (take (length [c]) (x :: a ++ c :: b)) with [x].
    rewrite (proj2 (eqb_false [x] [c])) by congruence.
    rewrite IH. unfold len. cbn [length]. lia.
Qed.

Lemma slice_front (a c : jsstring) : slice (a ++ c) 0 (len a) = a.
Proof.
  pose proof (slice_nonneg (a ++ c) 0 (len a) ltac:(lia) (len_nonneg a)) as H.
  rewrite Z.add_0_l in H. rewrite H.
  unfold len. rewrite Nat2Z.id. simpl. apply take_app_length.
Qed.

Lemma slice_middle (a b c : jsstring) :
  slice (a ++ b ++ c) (len a) (len a + len b) = b.
Proof.
  rewrite slice_nonneg by apply len_nonneg.
  unfold len. rewrite !Nat2Z.id, drop_app_length. apply take_app_length.
Qed.

Lemma slice_from_back (a c : jsstring) : slice_from (a ++ c) (len a) = c.
Proof.
  rewrite slice_from_nonneg by apply len_nonneg.
  unfold len. rewrite Nat2Z.id. apply drop_app_length.
Qed.

(** Painting the line that holds the whole span. *)
Lemma paint_span_line (a m d : jsstring) :
  Forall (fun x => x <> 171%N) a ->
  Forall (fun x => x <> 187%N) (a ++ open ++ m) ->
  paint 0 0 0 (a ++ (open ++ m ++ close) ++ d)
  = a ++ open_color ++ (open ++ m ++ close) ++ close_color ++ d.
Proof.
  intros Ha Ham. unfold paint. cbn [Z.eqb andb].
  assert (Hio : indexOf (a ++ (open ++ m ++ close) ++ d) open = len a).
  { pose proof (indexOf_from_first 171%N a (m ++ close ++ d) 0 Ha) as H.
    rewrite Z.add_0_l in H. rewrite <- H. unfold indexOf, open.
    rewrite <- !app_assoc. reflexivity. }
  assert (Hic : indexOf (a ++ (open ++ m ++ close) ++ d) close + 1
                = len a + len (open ++ m ++ close)).
  { pose proof (indexOf_from_first 187%N (a ++ open ++ m) d 0 Ham) as H.
    rewrite Z.add_0_l in H.
    replace (indexOf (a ++ (open ++ m ++ close) ++ d) close)
      with (len (a ++ open ++ m)).
    - rewrite !len_app. unfold len, close. simpl. lia.
    - rewrite <- H. unfold indexOf, close. rewrite <- !app_assoc. reflexivity. }
  rewrite Hic, Hio. rewrite slice_front, slice_middle.
  replace (a ++ (open ++ m ++ close) ++ d) with ((a ++ open ++ m ++ close) ++ d)
    by (by rewrite <- app_assoc).
  replace (len a + len (open ++ m ++ close)) with (len (a ++ open ++ m ++ close))
    by (by rewrite len_app).
  rewrite slice_from_back. reflexivity.
Qed.

(** X18. On a text of one line that holds none of the two markers, and for
    a span with [0 <= from_index <= to_index], the diagnostic of
    [highlight] is a single row: the number field of line 0, the bar, the
    text before the span, and then, between the underline-red and the
    reset escape codes, the span within its two markers, followed by the
    text after the span and a newline.  A span that reaches beyond the end
    of the text is cut at the end. *)
Theorem highlight_on_one_line :
  forall (from_index to_index : Z) (code : jsstring),
    0 <= from_index <= to_index ->
    Forall (fun c => c <> newline /\ c <> 171%N /\ c <> 187%N) code ->
    highlight from_index to_index code
    = str "   0 | "
        ++ take (Z.to_nat from_index) code
        ++ open_color
        ++ (open
              ++ take (Z.to_nat (to_index - from_index))
                   (drop (Z.to_nat from_index) code)
              ++ close)
        ++ close_color
        ++ drop (Z.to_nat to_index) code ++ [newline].
Proof.
  intros from_index to_index code Hft Hcode.
  set (a := take (Z.to_nat from_index) code).
  set (m := take (Z.to_nat (to_index - from_index))
              (drop (Z.to_nat from_index) code)).
  set (d := drop (Z.to_nat to_index) code).
  assert (Hnl : forall s, Forall (fun c => c <> newline /\ c <> 171%N /\ c <> 187%N) s ->
                          Forall (fun c => c <> newline) s)
    by (intros s; apply Forall_impl; tauto).
  assert (Ha : Forall (fun c => c <> newline /\ c <> 171%N /\ c <> 187%N) a)
    by (by apply Forall_take).
  assert (Hm : Forall (fun c => c <> newline /\ c <> 171%N /\ c <> 187%N) m)
    by (by apply Forall_take, Forall_drop).
  assert (Hd : Forall (fun c => c <> newline /\ c <> 171%N /\ c <> 187%N) d)
    by (by apply Forall_drop).
  assert (Hmarked : marked from_index to_index code
                    = a ++ (open ++ m ++ close) ++ d).
  { unfold marked.
    replace (slice code 0 from_index) with (slice code 0 (0 + from_index))
      by (f_equal; lia).
    rewrite (slice_nonneg code 0 from_index) by lia.
    replace to_index with (from_index + (to_index - from_index)) at 1 by lia.
    rewrite slice_nonneg by lia. rewrite slice_from_nonneg by lia.
    rewrite drop_0. fold a m d. by rewrite <- !app_assoc. }
  assert (Hlines : split_on newline (a ++ (open ++ m ++ close) ++ d)
                   = [a ++ (open ++ m ++ close) ++ d]).
  { apply split_on_none. rewrite !Forall_app. unfold open, close.
    repeat split; auto; repeat constructor; discriminate. }
  unfold highlight.
  rewrite !line_of_spec.
  rewrite !count_newlines_none by (apply Hnl; by apply Forall_take).
  change (slice code 0 from_index ++ open ++ slice code from_index to_index
            ++ close ++ slice_from code to_index)
    with (marked from_index to_index code).
  rewrite Hmarked, Hlines. cbv zeta.
  change (slice [a ++ (open ++ m ++ close) ++ d] (Z.max (0 - 3) 0)
            (Z.min (0 + 3) (Z.of_nat (length [a ++ (open ++ m ++ close) ++ d]))))
    with [a ++ (open ++ m ++ close) ++ d].
  cbn [render app]. change (Z.max (0 - 3) 0 + 0) with 0.
  replace ((a ++ (open ++ m ++ close) ++ d) ++ [newline])
    with (a ++ (open ++ m ++ close) ++ d ++ [newline])
    by (by rewrite <- !app_assoc).
  rewrite paint_span_line.
  - change (pad4 0 ++ str " | ") with (str "   0 | ").
    change (pad4 0) with (str "   0"). reflexivity.
  - eapply Forall_impl; [| exact Ha]. tauto.
  - rewrite !Forall_app. unfold open.
    split; [eapply Forall_impl; [| exact Ha]; tauto |].
    split; [repeat constructor; discriminate |].
    eapply Forall_impl; [| exact Hm]. tauto.
Qed.

Lemma highlight_on_one_line_witness :
  highlight 2 3 (str "(a")
  = str "   0 | "
      ++ take (Z.to_nat 2) (str "(a")
      ++ open_color
      ++ (open ++ take (Z.to_nat (3 - 2)) (drop (Z.to_nat 2) (str "(a")) ++ close)
      ++ close_color
      ++ drop (Z.to_nat 3) (str "(a") ++ [newline].
Proof.
  apply (highlight_on_one_line 2 3 (str "(a")).
  - lia.
  - repeat constructor; discriminate.
Defined.

(** ** The default alternative *)

Lemma slice_empty {A : Type} (xs : list A) a : slice xs a a = [].
Proof. unfold slice. rewrite Z.sub_diag. reflexivity. Qed.

(** X19. The empty literal matches on every state and consumes nothing, so
    a [guard] headed by [match("")] is a default alternative: after the
    trivia it always runs its body, and is never "absent". *)
Theorem guard_on_empty_literal_runs_body :
  forall (A : Type) (body : Parser A) (s : State),
    match_here [] s = Ret s true
    /\ guard (match_ (Lit [])) body s
       = (var [state, _skipped] := skip s in
          var [state, a] := body state in
          Ret state (Some a)).
Proof.
  intros A body s.
  assert (Hm : forall s0, match_here [] s0 = Ret s0 true).
  { intros [c i]. unfold match_here. simpl.
    replace (i + len []) with i by (unfold len; simpl; lia).
    rewrite slice_empty. reflexivity. }
  split; [apply Hm |].
  destruct (skip_ret s) as (s1 & b & Hr & _ & _ & Hset & _).
  unfold guard, dry, match_. rewrite Hr. cbn [and_then].
  unfold skip. rewrite (skip_rec_settled _ _ Hset). cbn [and_then].
  rewrite Hm. reflexivity.
Qed.

(** ** Termination *)

Lemma and_then_returns {A B : Type} (r : Result A) (k : State -> A -> Result B) :
  r <> Diverge ->
  (forall s a, r = Ret s a -> k s a <> Diverge) ->
  and_then r k <> Diverge.
Proof.
  destruct r as [s a | m |]; simpl; intros Hr Hk; [by apply Hk | discriminate |].
  congruence.
Qed.

Lemma skip_returns s : skip s <> Diverge.
Proof. destruct (skip_ret s) as (s' & b & Hr & _). rewrite Hr. discriminate. Qed.

Lemma match_literal_returns l s : match_ (Lit l) s <> Diverge.
Proof.
  unfold match_. apply and_then_returns; [apply skip_returns |].
  intros s1 b _. destruct (match_here_ret l s1) as [H | H]; rewrite H; discriminate.
Qed.

Lemma consume_returns l s : consume l s <> Diverge.
Proof.
  unfold consume. apply and_then_returns; [apply match_literal_returns |].
  intros s1 [|] _; discriminate.
Qed.

Lemma name_returns s : name s <> Diverge.
Proof.
  unfold name. apply and_then_returns; [apply skip_returns |].
  intros s1 b _. destruct (name_here_ret s1) as (s2 & n & H & _).
  rewrite H. discriminate.
Qed.

Lemma name1_returns s : name1 s <> Diverge.
Proof.
  unfold name1. apply and_then_returns; [apply name_returns |].
  intros s1 n _. destruct (0 <? len n); discriminate.
Qed.

(** A non-empty literal is matched only before the end of the text. *)
Lemma match_here_progress l s s' :
  l <> [] -> match_here l s = Ret s' true ->
  index s < index s' /\ index s < len (code s).
Proof.
  intros Hl. unfold match_here.
  destruct (eqb (slice (code s) (index s) (index s + len l)) l) eqn:E;
    [| discriminate].
  intros [= <-]. simpl. apply eqb_true in E.
  assert (0 < len l) by (destruct l; [congruence | unfold len; simpl; lia]).
  split; [lia |].
  destruct (Z.le_gt_cases (len (code s)) (index s)) as [Hle | Hgt]; [| lia].
  rewrite slice_beyond in E by exact Hle. congruence.
Qed.

Lemma consume_progress l s s' u :
  l <> [] -> consume l s = Ret s' u ->
  index s < index s' /\ index s < len (code s)
  /\ (remaining (code s') (index s') < remaining (code s) (index s))%nat.
Proof.
  intros Hl H. unfold consume, match_ in H.
  apply and_then_Ret in H as (s2 & b & H & H').
  apply and_then_Ret in H as (s1 & sk & Hs & Hm).
  destruct b; [| discriminate]. injection H' as <- _.
  destruct (steady_skip _ _ _ Hs) as (Hc1 & Hi1 & _).
  destruct (match_here_progress l s1 s2 Hl Hm) as [Hlt Hin].
  destruct (steady_match_here l _ _ _ Hm) as (Hc2 & _).
  unfold remaining. rewrite Hc2, Hc1 in *. lia.
Qed.

(** X20. The demonstration grammar terminates on every input: with a
    budget above the number of characters left, [sbt] returns or throws;
    the depth of its recursion never exceeds what is left of the text,
    because each nested call comes after a consumed ["("]. *)
Theorem sbt_terminates :
  forall (fuel : nat) (s : State),
    (remaining (code s) (index s) < fuel)%nat ->
    sbt fuel s <> Diverge.
Proof.
  induction fuel as [| fuel IH]; intros s Hf; [lia |].
  cbn [sbt grammar].
  assert (Hname : forall s0,
             guard (match_ (Lit (str ""))) (bind name (fun x => pure (Leaf x))) s0
             <> Diverge).
  { intros s0. unfold guard. apply and_then_returns; [apply skip_returns |].
    intros s1 b _. apply and_then_returns.
    - unfold dry. apply and_then_returns; [apply match_literal_returns |].
      discriminate.
    - intros s2 [|] _; [| discriminate].
      apply and_then_returns; [| discriminate].
      unfold bind. apply and_then_returns; [apply name_returns | discriminate]. }
  assert (Hrest : forall s0 (got : option StrBinTree),
             match got with
             | Some a =>
                 if truthy a then Ret s0 a
                 else var [state, got0] :=
                        guard (match_ (Lit (str "")))
                          (bind name (fun x => pure (Leaf x))) s0 in
                      match got0 with
                      | Some a0 =>
                          if truthy a0 then Ret state a0
                          else expected_type (str "StrBinTree") state
                      | None => expected_type (str "StrBinTree") state
                      end
             | None =>
                 var [state, got0] :=
                   guard (match_ (Lit (str "")))
                     (bind name (fun x => pure (Leaf x))) s0 in
                 match got0 with
                 | Some a0 =>
                     if truthy a0 then Ret state a0
                     else expected_type (str "StrBinTree") state
                 | None => expected_type (str "StrBinTree") state
                 end
             end <> Diverge).
  { intros s0 got.
    assert (Hk : (var [state, got0] :=
                    guard (match_ (Lit (str "")))
                      (bind name (fun x => pure (Leaf x))) s0 in
                  match got0 with
                  | Some a0 =>
                      if truthy a0 then Ret state a0
                      else expected_type (str "StrBinTree") state
                  | None => expected_type (str "StrBinTree") state
                  end) <> Diverge).
    { apply and_then_returns; [apply Hname |].
      intros s1 [a |] _; [destruct (truthy a) |]; discriminate. }
    destruct got as [a |]; [destruct (truthy a); [discriminate | exact Hk] |
                           exact Hk]. }
  apply and_then_returns; [| intros s0 got _; apply Hrest].
  unfold guard. apply and_then_returns; [apply skip_returns |].
  intros s1 b Hs. apply and_then_returns.
  { unfold dry. apply and_then_returns; [apply match_literal_returns |].
    discriminate. }
  intros s1' [|] Hd; [| discriminate].
  assert (s1' = s1) as ->.
  { unfold dry in Hd. apply and_then_Ret in Hd as (? & ? & _ & Hd).
    by injection Hd as <- _. }
  apply and_then_returns; [| discriminate].
  destruct (steady_skip _ _ _ Hs) as (Hc1 & Hi1 & _).
  unfold bind. apply and_then_returns; [apply consume_returns |].
  intros s2 u Hc.
  destruct (consume_progress (str "(") s1 s2 u ltac:(discriminate) Hc)
    as (_ & _ & Hrem).
  assert (Hf2 : (remaining (code s2) (index s2) < fuel)%nat).
  { unfold remaining in *. rewrite Hc1 in Hrem. lia. }
  apply and_then_returns; [by apply IH |].
  intros s3 lft Hl.
  destruct (steady_sbt _ _ _ _ Hl) as (Hc3 & Hi3 & _).
  apply and_then_returns.
  { apply IH. unfold remaining in *. rewrite Hc3. lia. }
  intros s4 rgt _. apply and_then_returns; [apply consume_returns | discriminate].
Qed.

Lemma sbt_terminates_witness :
  sbt 3 (mkState (str "(a") 0) <> Diverge.
Proof.
  apply (sbt_terminates 3 (mkState (str "(a") 0)).
  unfold remaining, len. simpl. lia.
Defined.

(** X21. [until] terminates when its element parser makes progress.  Let
    [delim] and [elem] return or throw on every state, let [delim] leave
    the text unchanged and never move the cursor back, and let [elem],
    whenever it returns, have left the text unchanged and moved the cursor
    forward from a position before the end of the text.  Then with a
    budget above the number of characters left, [until] returns or throws:
    its recursion is never deeper than what is left of the text. *)
Theorem until_terminates_on_progress :
  forall (A : Type) (delim : Parser bool) (elem : Parser A)
         (fuel : nat) (s : State),
    steady delim ->
    (forall s0, delim s0 <> Diverge) ->
    (forall s0, elem s0 <> Diverge) ->
    (forall s0 s1 a, elem s0 = Ret s1 a ->
       code s1 = code s0 /\ index s0 < index s1 /\ index s0 < len (code s0)) ->
    (remaining (code s) (index s) < fuel)%nat ->
    until fuel delim elem s <> Diverge.
Proof.
  intros A delim elem fuel s Hd Hdr Her Hprog. revert s.
  induction fuel as [| fuel IH]; intros s Hf; [lia |].
  cbn [until]. apply and_then_returns; [apply Hdr |].
  intros s1 [|] H1; [discriminate |].
  destruct (Hd _ _ _ H1) as (Hc1 & Hi1 & _).
  apply and_then_returns; [apply Her |].
  intros s2 a H2. destruct (Hprog _ _ _ H2) as (Hc2 & Hlt & Hin).
  apply and_then_returns; [| discriminate].
  apply IH. unfold remaining in *. rewrite Hc2, Hc1 in *. lia.
Qed.

Lemma until_terminates_on_progress_witness :
  until 3 (match_ (Lit (str ")"))) (consume (str "a")) (mkState (str "aa") 0)
  <> Diverge.
Proof.
  apply (until_terminates_on_progress unit (match_ (Lit (str ")")))
           (consume (str "a")) 3 (mkState (str "aa") 0)).
  - apply steady_match_literal.
  - apply match_literal_returns.
  - apply consume_returns.
  - intros s0 s1 a H.
    destruct (consume_progress (str "a") s0 s1 a ltac:(discriminate) H)
      as (Hlt & Hin & _).
    destruct (steady_consume (str "a") _ _ _ H) as (Hc & _ & _).
    split; [exact Hc |]. split; assumption.
  - unfold remaining, len. simpl. lia.
Defined.
